(** * WebVoiceRecorder: capture / transcode / playback orchestration

    A shallow embedding of the [WebVoiceRecorder] React component
    (the MP3/MP4 library variant, with the Opus variant's differing
    handlers in their own module) and the properties of its handlers.

    React state is a record [View]; a handler is a function of the
    render snapshot it closes over (its _closure_) that transforms the
    pending view and the mutable world of refs and platform objects.
    Every platform effect is appended to a log, so that orderings can
    be stated. *)

From Stdlib Require Import Ascii String NArith DecimalString DecimalN DecimalFacts.
From stdpp Require Import base decidable option list strings gmap.

Set Primitive Projections.

Local Open Scope string_scope.

(** ** Strings: the part of [String.prototype.replace] the code uses *)

Module JsString.

(** [strip_prefix p s] is the rest of [s] after its prefix [p]. *)
Fixpoint strip_prefix (p s : string) : option string :=
  match p, s with
  | EmptyString, _ => Some s
  | String a p', String b s' =>
      if Ascii.eqb a b then strip_prefix p' s' else None
  | String _ _, EmptyString => None
  end.

(** [s.replace(pat, rep)] with a string pattern: the leftmost
    occurrence of [pat] is replaced, nothing else. The replacement
    strings of this program contain no [$], so no substitution
    pattern applies. *)
Fixpoint replace (pat rep s : string) : string :=
  match strip_prefix pat s with
  | Some rest => rep +:+ rest
  | None =>
      match s with
      | EmptyString => EmptyString
      | String c s' => String c (replace pat rep s')
      end
  end.

(** JS truthiness of a string. *)
Definition truthy (s : string) : bool :=
  match s with EmptyString => false | _ => true end.

(** [pat] occurs in [s] right after [pre]. *)
Definition occurs_after (pat pre s : string) : Prop :=
  ∃ post, s = pre +:+ pat +:+ post.

(** [s'] is [s] with the first occurrence of [pat] replaced by
    [rep]; [s] itself when [pat] does not occur. *)
Inductive first_replaced (pat rep : string) : string → string → Prop :=
| fr_hit pre post :
    (∀ pre', occurs_after pat pre' (pre +:+ pat +:+ post) →
             (String.length pre ≤ String.length pre')%nat) →
    first_replaced pat rep (pre +:+ pat +:+ post) (pre +:+ rep +:+ post)
| fr_miss s :
    (∀ pre, ¬ occurs_after pat pre s) →
    first_replaced pat rep s s.

End JsString.

(** ** Address normalization and container preference *)

(** [normalizeServerUrl]; [None] is JS [null]/[undefined]. *)
Definition normalizeServerUrl (hostname : string) (url : option string)
  : option string :=
  match url with
  | None => None
  | Some u =>
      if negb (JsString.truthy u) then None
      else if String.eqb hostname "localhost"
           then Some (JsString.replace "10.0.2.2" "localhost" u)
      else if String.eqb hostname "10.0.2.2"
           then Some (JsString.replace "localhost" "10.0.2.2" u)
      else Some u
  end.

Definition possibleTypes : list string :=
  [ "audio/webm;codecs=opus";
    "audio/mp4;codecs=mp4a.40.2";
    "audio/webm";
    "audio/mp4";
    "audio/aac" ].

(** The [for ... of] loop of [getSupportedMimeType] over a list of
    candidates, [isTypeSupported] being [MediaRecorder.isTypeSupported]. *)
Fixpoint firstSupported (isTypeSupported : string → bool)
    (types : list string) : string :=
  match types with
  | [] => ""
  | mimeType :: rest =>
      if isTypeSupported mimeType then mimeType
      else firstSupported isTypeSupported rest
  end.

Definition getSupportedMimeType (isTypeSupported : string → bool) : string :=
  firstSupported isTypeSupported possibleTypes.

(** ** Data model *)

(** A [Blob]: bytes and a declared type. *)
Record Blob := mkBlob {
  blob_bytes : list Byte.byte;
  blob_type : string;
}.

Definition blob_size (b : Blob) : nat := length (blob_bytes b).

(** The type a new [Blob] gets from the one it is given: lower-cased,
    or empty when it holds a character outside U+0020..U+007E. *)
Definition typeCharOk (ch : ascii) : bool :=
  (32 <=? nat_of_ascii ch)%nat && (nat_of_ascii ch <=? 126)%nat.

Definition asciiLower (ch : ascii) : ascii :=
  if (65 <=? nat_of_ascii ch)%nat && (nat_of_ascii ch <=? 90)%nat
  then ascii_of_nat (nat_of_ascii ch + 32)
  else ch.

Fixpoint mapString (f : ascii → ascii) (s : string) : string :=
  match s with
  | EmptyString => EmptyString
  | String ch s' => String (f ch) (mapString f s')
  end.

Definition blobType (type : string) : string :=
  if forallb typeCharOk (list_ascii_of_string type)
  then mapString asciiLower type
  else "".

(** [new Blob(parts, { type })]. *)
Definition newBlob (parts : list Blob) (type : string) : Blob :=
  mkBlob (concat (map blob_bytes parts)) (blobType type).

(** One stored variant of a library recording ([recording.mp3],
    [recording.mp4]). *)
Record Variant := mkVariant {
  url : option string;
  mimetype : option string;
  size_bytes : option nat;
}.

(** A recording of the remote library, as the list endpoint returns it. *)
Record RecordingEntry := mkRecording {
  _id : string;
  filename : string;
  originalFilename : option string;
  mp3 : option Variant;
  mp4 : option Variant;
}.

(** The React state of the component: what one render closes over. *)
Record View := mkView {
  isRecording : bool;
  isPlaying : bool;
  recordingTime : nat;
  playbackTime : nat;
  audioBlob : option Blob;
  audioUrl : string;
  error : string;
  isConverting : bool;
  selectedRecording : option RecordingEntry;
  recordingsList : list RecordingEntry;
  recordingFormats : gmap string string;
}.

Definition initialView : View :=
  mkView false false 0 0 None "" "" false None [] ∅.

(** The hidden [<audio>] element behind [audioPlayerRef]: one [src]. *)
Record Audio := mkAudio {
  src : string;
  currentTime : nat;
  paused : bool;
}.

Record MediaRecorder := mkMediaRecorder {
  mimeType : string;
  recorderStream : positive;
  recorderActive : bool;
}.

Inductive TimerKind := RecordingTick | PlaybackTick.

(** A promise returned by [audio.play()] that has not run its reaction
    yet: the address the call closed over, and whether the element has
    already rejected it (a later [pause()] or [load()] aborts it). *)
Record PlayPromise := mkPlayPromise {
  playUrl : string;
  aborted : bool;
}.

(** What the platform offers; fixed during a run. *)
Record Platform := mkPlatform {
  hostname : string;
  hasGetUserMedia : bool;
  hasMediaRecorder : bool;
  isTypeSupported : string → bool;
  defaultMimeType : string;
  hasOnRecordingComplete : bool;
}.

(** Platform effects, in the order the handlers issue them. *)
Inductive Event :=
| EvPause
| EvSeek (t : nat)
| EvSetSrc (u : string)
| EvSetCrossOrigin (mode : string)
| EvLoad
| EvPlay
| EvCreateObjectURL (u : string)
| EvRevokeObjectURL (u : string)
| EvGetUserMedia
| EvStopTracks (stream : positive)
| EvSetInterval (id : positive) (k : TimerKind)
| EvClearInterval (id : positive)
| EvRecorderStart (mime : string)
| EvRecorderStop
| EvFfmpegLoad
| EvFfmpegWriteFile (name : string) (data : Blob)
| EvFfmpegExec (args : list string)
| EvFfmpegReadFile (name : string)
| EvFetchRecordings
| EvUpload (body : Blob) (name : string)
| EvRecordingComplete (b : Blob) (u : string).

(** Refs and platform objects: everything mutable outside React state. *)
Record World := mkWorld {
  platform : Platform;
  audioPlayerRef : option Audio;
  mediaRecorderRef : option MediaRecorder;
  streamRef : option positive;
  chunksRef : list Blob;
  timerRef : option positive;
  playbackTimerRef : option positive;
  ffmpegLoaded : bool;
  intervals : list (positive * TimerKind);
  nextId : positive;
  liveStreams : list positive;
  issued : list string;
  pendingDevice : nat;
  pendingPlays : list PlayPromise;
  log : list Event;
}.

(** The pending React state together with the world. *)
Record St := mkSt {
  view : View;
  world : World;
}.

(** *** Field updates *)

Definition setIsRecording (b : bool) (v : View) : View :=
  mkView b (isPlaying v) (recordingTime v) (playbackTime v) (audioBlob v)
    (audioUrl v) (error v) (isConverting v) (selectedRecording v)
    (recordingsList v) (recordingFormats v).
Definition setIsPlaying (b : bool) (v : View) : View :=
  mkView (isRecording v) b (recordingTime v) (playbackTime v) (audioBlob v)
    (audioUrl v) (error v) (isConverting v) (selectedRecording v)
    (recordingsList v) (recordingFormats v).
Definition setRecordingTime (n : nat) (v : View) : View :=
  mkView (isRecording v) (isPlaying v) n (playbackTime v) (audioBlob v)
    (audioUrl v) (error v) (isConverting v) (selectedRecording v)
    (recordingsList v) (recordingFormats v).
Definition setPlaybackTime (n : nat) (v : View) : View :=
  mkView (isRecording v) (isPlaying v) (recordingTime v) n (audioBlob v)
    (audioUrl v) (error v) (isConverting v) (selectedRecording v)
    (recordingsList v) (recordingFormats v).
Definition setAudioBlob (b : option Blob) (v : View) : View :=
  mkView (isRecording v) (isPlaying v) (recordingTime v) (playbackTime v) b
    (audioUrl v) (error v) (isConverting v) (selectedRecording v)
    (recordingsList v) (recordingFormats v).
Definition setAudioUrl (u : string) (v : View) : View :=
  mkView (isRecording v) (isPlaying v) (recordingTime v) (playbackTime v)
    (audioBlob v) u (error v) (isConverting v) (selectedRecording v)
    (recordingsList v) (recordingFormats v).
Definition setError (e : string) (v : View) : View :=
  mkView (isRecording v) (isPlaying v) (recordingTime v) (playbackTime v)
    (audioBlob v) (audioUrl v) e (isConverting v) (selectedRecording v)
    (recordingsList v) (recordingFormats v).
Definition setIsConverting (b : bool) (v : View) : View :=
  mkView (isRecording v) (isPlaying v) (recordingTime v) (playbackTime v)
    (audioBlob v) (audioUrl v) (error v) b (selectedRecording v)
    (recordingsList v) (recordingFormats v).
Definition setSelectedRecording (r : option RecordingEntry) (v : View) : View :=
  mkView (isRecording v) (isPlaying v) (recordingTime v) (playbackTime v)
    (audioBlob v) (audioUrl v) (error v) (isConverting v) r
    (recordingsList v) (recordingFormats v).
Definition setRecordingsList (l : list RecordingEntry) (v : View) : View :=
  mkView (isRecording v) (isPlaying v) (recordingTime v) (playbackTime v)
    (audioBlob v) (audioUrl v) (error v) (isConverting v)
    (selectedRecording v) l (recordingFormats v).
Definition setRecordingFormats (f : gmap string string → gmap string string)
    (v : View) : View :=
  mkView (isRecording v) (isPlaying v) (recordingTime v) (playbackTime v)
    (audioBlob v) (audioUrl v) (error v) (isConverting v)
    (selectedRecording v) (recordingsList v) (f (recordingFormats v)).

Definition withPlayer (a : option Audio) (w : World) : World :=
  mkWorld (platform w) a (mediaRecorderRef w) (streamRef w) (chunksRef w)
    (timerRef w) (playbackTimerRef w) (ffmpegLoaded w) (intervals w)
    (nextId w) (liveStreams w) (issued w) (pendingDevice w) (pendingPlays w)
    (log w).
Definition withMediaRecorder (m : option MediaRecorder) (w : World) : World :=
  mkWorld (platform w) (audioPlayerRef w) m (streamRef w) (chunksRef w)
    (timerRef w) (playbackTimerRef w) (ffmpegLoaded w) (intervals w)
    (nextId w) (liveStreams w) (issued w) (pendingDevice w) (pendingPlays w)
    (log w).
Definition withStream (s : option positive) (w : World) : World :=
  mkWorld (platform w) (audioPlayerRef w) (mediaRecorderRef w) s (chunksRef w)
    (timerRef w) (playbackTimerRef w) (ffmpegLoaded w) (intervals w)
    (nextId w) (liveStreams w) (issued w) (pendingDevice w) (pendingPlays w)
    (log w).
Definition withChunks (c : list Blob) (w : World) : World :=
  mkWorld (platform w) (audioPlayerRef w) (mediaRecorderRef w) (streamRef w) c
    (timerRef w) (playbackTimerRef w) (ffmpegLoaded w) (intervals w)
    (nextId w) (liveStreams w) (issued w) (pendingDevice w) (pendingPlays w)
    (log w).
Definition withTimer (t : option positive) (w : World) : World :=
  mkWorld (platform w) (audioPlayerRef w) (mediaRecorderRef w) (streamRef w)
    (chunksRef w) t (playbackTimerRef w) (ffmpegLoaded w) (intervals w)
    (nextId w) (liveStreams w) (issued w) (pendingDevice w) (pendingPlays w)
    (log w).
Definition withPlaybackTimer (t : option positive) (w : World) : World :=
  mkWorld (platform w) (audioPlayerRef w) (mediaRecorderRef w) (streamRef w)
    (chunksRef w) (timerRef w) t (ffmpegLoaded w) (intervals w)
    (nextId w) (liveStreams w) (issued w) (pendingDevice w) (pendingPlays w)
    (log w).
Definition withFfmpegLoaded (b : bool) (w : World) : World :=
  mkWorld (platform w) (audioPlayerRef w) (mediaRecorderRef w) (streamRef w)
    (chunksRef w) (timerRef w) (playbackTimerRef w) b (intervals w)
    (nextId w) (liveStreams w) (issued w) (pendingDevice w) (pendingPlays w)
    (log w).
Definition withIntervals (l : list (positive * TimerKind)) (w : World) : World :=
  mkWorld (platform w) (audioPlayerRef w) (mediaRecorderRef w) (streamRef w)
    (chunksRef w) (timerRef w) (playbackTimerRef w) (ffmpegLoaded w) l
    (nextId w) (liveStreams w) (issued w) (pendingDevice w) (pendingPlays w)
    (log w).
Definition withNextId (n : positive) (w : World) : World :=
  mkWorld (platform w) (audioPlayerRef w) (mediaRecorderRef w) (streamRef w)
    (chunksRef w) (timerRef w) (playbackTimerRef w) (ffmpegLoaded w)
    (intervals w) n (liveStreams w) (issued w) (pendingDevice w)
    (pendingPlays w) (log w).
Definition withLiveStreams (l : list positive) (w : World) : World :=
  mkWorld (platform w) (audioPlayerRef w) (mediaRecorderRef w) (streamRef w)
    (chunksRef w) (timerRef w) (playbackTimerRef w) (ffmpegLoaded w)
    (intervals w) (nextId w) l (issued w) (pendingDevice w) (pendingPlays w)
    (log w).
Definition withIssued (l : list string) (w : World) : World :=
  mkWorld (platform w) (audioPlayerRef w) (mediaRecorderRef w) (streamRef w)
    (chunksRef w) (timerRef w) (playbackTimerRef w) (ffmpegLoaded w)
    (intervals w) (nextId w) (liveStreams w) l (pendingDevice w)
    (pendingPlays w) (log w).
Definition withPendingDevice (n : nat) (w : World) : World :=
  mkWorld (platform w) (audioPlayerRef w) (mediaRecorderRef w) (streamRef w)
    (chunksRef w) (timerRef w) (playbackTimerRef w) (ffmpegLoaded w)
    (intervals w) (nextId w) (liveStreams w) (issued w) n (pendingPlays w)
    (log w).
Definition withPendingPlays (l : list PlayPromise) (w : World) : World :=
  mkWorld (platform w) (audioPlayerRef w) (mediaRecorderRef w) (streamRef w)
    (chunksRef w) (timerRef w) (playbackTimerRef w) (ffmpegLoaded w)
    (intervals w) (nextId w) (liveStreams w) (issued w) (pendingDevice w) l
    (log w).
Definition emit (e : Event) (w : World) : World :=
  mkWorld (platform w) (audioPlayerRef w) (mediaRecorderRef w) (streamRef w)
    (chunksRef w) (timerRef w) (playbackTimerRef w) (ffmpegLoaded w)
    (intervals w) (nextId w) (liveStreams w) (issued w) (pendingDevice w)
    (pendingPlays w) (log w ++ [e]).

(** Lifting to [St]. *)
Definition onView (f : View → View) (s : St) : St :=
  mkSt (f (view s)) (world s).
Definition onWorld (f : World → World) (s : St) : St :=
  mkSt (view s) (f (world s)).

(** Left-to-right sequencing of statements. *)
Definition andThen (f g : St → St) : St → St := λ s, g (f s).
Infix ">>" := andThen (at level 61, left associativity).

(** ** Platform primitives *)

Definition whenPlayer (f : Audio → St → St) : St → St :=
  λ s, match audioPlayerRef (world s) with
       | Some a => f a s
       | None => s
       end.

Definition abort (p : PlayPromise) : PlayPromise :=
  mkPlayPromise (playUrl p) true.

(** [audio.pause()], [audio.currentTime = t], [audio.src = u],
    [audio.crossOrigin = mode], [audio.load()], [audio.play()].
    Pausing and loading reject the play promises still pending. The
    element is rendered with [crossOrigin="anonymous"], so assigning it
    changes nothing on the element. *)
Definition audioPause : St → St :=
  whenPlayer (λ a, onWorld (λ w,
    emit EvPause
      (withPendingPlays (map abort (pendingPlays w))
         (withPlayer (Some (mkAudio (src a) (currentTime a) true)) w)))).
Definition audioSeek (t : nat) : St → St :=
  whenPlayer (λ a, onWorld (λ w,
    emit (EvSeek t) (withPlayer (Some (mkAudio (src a) t (paused a))) w))).
Definition audioSetSrc (u : string) : St → St :=
  whenPlayer (λ a, onWorld (λ w,
    emit (EvSetSrc u) (withPlayer (Some (mkAudio u (currentTime a) (paused a))) w))).
Definition audioSetCrossOrigin (mode : string) : St → St :=
  whenPlayer (λ a, onWorld (emit (EvSetCrossOrigin mode))).
Definition audioLoad : St → St :=
  whenPlayer (λ a, onWorld (λ w,
    emit EvLoad
      (withPendingPlays (map abort (pendingPlays w))
         (withPlayer (Some (mkAudio (src a) 0 true)) w)))).
Definition audioPlay (u : string) : St → St :=
  whenPlayer (λ a, onWorld (λ w,
    emit EvPlay
      (withPendingPlays (pendingPlays w ++ [mkPlayPromise u false])
         (withPlayer (Some (mkAudio (src a) (currentTime a) false)) w)))).

(** What the element does by itself: while it plays its position
    advances, and at the end of the media it stops. *)
Definition audioProgress (t : nat) : St → St :=
  whenPlayer (λ a, if paused a then λ s, s
                   else onWorld (withPlayer (Some (mkAudio (src a) t false)))).
Definition audioEnds : St → St :=
  whenPlayer (λ a, onWorld
    (withPlayer (Some (mkAudio (src a) (currentTime a) true)))).

Definition clearInterval (id : positive) : St → St :=
  onWorld (λ w,
    emit (EvClearInterval id)
      (withIntervals (filter (λ p, p.1 ≠ id) (intervals w)) w)).

(** [setInterval]: the new timer gets the next free id. *)
Definition setInterval (k : TimerKind) (store : option positive → World → World)
  : St → St :=
  onWorld (λ w,
    let id := nextId w in
    store (Some id)
      (emit (EvSetInterval id k)
         (withNextId (Pos.succ id) (withIntervals (intervals w ++ [(id, k)]) w)))).

(** [stream.getTracks().forEach(track => track.stop())]. *)
Definition stopTracks : St → St :=
  λ s, match streamRef (world s) with
       | Some st =>
           onWorld (λ w,
             emit (EvStopTracks st)
               (withLiveStreams (filter (λ x, x ≠ st) (liveStreams w)) w)) s
       | None => s
       end.

Definition createObjectURL (u : string) : St → St :=
  onWorld (λ w, emit (EvCreateObjectURL u) (withIssued (issued w ++ [u]) w)).
Definition revokeObjectURL (u : string) : St → St :=
  onWorld (emit (EvRevokeObjectURL u)).

(** ** The handlers of [WebVoiceRecorder] *)

(** [recordingFormats[recording._id] || "mp3"]. *)
Definition selectedFormat (c : View) (recording : RecordingEntry) : string :=
  match recordingFormats c !! _id recording with
  | Some f => if JsString.truthy f then f else "mp3"
  | None => "mp3"
  end.

Definition getRecordingUrl (c : View) (p : Platform)
    (recording : RecordingEntry) : option string :=
  let u :=
    if String.eqb (selectedFormat c recording) "mp3"
    then mp3 recording ≫= url
    else if String.eqb (selectedFormat c recording) "mp4"
    then mp4 recording ≫= url
    else mp3 recording ≫= url in
  normalizeServerUrl (hostname p) u.

Definition getRecordingInfo (c : View) (recording : RecordingEntry)
  : option Variant :=
  if String.eqb (selectedFormat c recording) "mp3" then mp3 recording
  else if String.eqb (selectedFormat c recording) "mp4" then mp4 recording
  else mp3 recording.

Definition getRecordingDisplayName (recording : RecordingEntry) : string :=
  match originalFilename recording with
  | Some n => if JsString.truthy n then n else filename recording
  | None => filename recording
  end.

(** [loadFFmpeg], up to its [await]. *)
Definition loadFFmpeg : St → St :=
  λ s, if ffmpegLoaded (world s) then s
       else (onView (setError "Loading audio converter...")
             >> onWorld (emit EvFfmpegLoad)) s.
Definition loadFFmpegResolved : St → St :=
  onWorld (withFfmpegLoaded true) >> onView (setError "").
Definition loadFFmpegRejected : St → St :=
  onView (setError "Failed to load audio converter. Please try again.").

Definition fetchRecordings : St → St := onWorld (emit EvFetchRecordings).
Definition fetchRecordingsOk (data : list RecordingEntry) : St → St :=
  onView (setRecordingsList data).

(** The cleanup returned by the effect; [c] is the render it closed over. *)
Definition effectCleanup (c : View) : St → St :=
  (λ s, match timerRef (world s) with
        | Some id => clearInterval id s
        | None => s
        end)
  >> (λ s, match playbackTimerRef (world s) with
           | Some id => clearInterval id s
           | None => s
           end)
  >> stopTracks
  >> (λ s, if JsString.truthy (audioUrl c)
           then revokeObjectURL (audioUrl c) s else s).

Definition effectBody : St → St := loadFFmpeg >> fetchRecordings.

(** A render after a task: the effect depends on [[audioUrl]], so when
    the stored address differs from the one of the previous render [c]
    the previous cleanup runs, then the effect again. *)
Definition commit (c : View) : St → St :=
  λ s, if decide (audioUrl (view s) = audioUrl c) then s
       else (effectCleanup c >> effectBody) s.

(** The message [startRecording] reports while the engine is not loaded. *)
Definition engineNotReadyMessage : string :=
  "Audio converter is not loaded yet. Please wait.".

Definition checkSupport (s : St) : bool * St :=
  if negb (hasGetUserMedia (platform (world s))) then
    (false, onView (setError "Your browser does not support audio recording.") s)
  else if negb (hasMediaRecorder (platform (world s))) then
    (false, onView (setError "MediaRecorder is not supported in your browser.") s)
  else (true, s).

Definition stopPlayback : St → St :=
  whenPlayer (λ _, audioPause >> audioSeek 0)
  >> onView (setIsPlaying false)
  >> onView (setPlaybackTime 0)
  >> onView (setSelectedRecording None)
  >> (λ s, match playbackTimerRef (world s) with
           | Some id => (clearInterval id >> onWorld (withPlaybackTimer None)) s
           | None => s
           end).

(** [startRecording] up to [await getUserMedia(...)]. *)
Definition startRecording (c : View) : St → St :=
  λ s,
    let '(ok, s) := checkSupport s in
    if negb ok then s
    else if negb (ffmpegLoaded (world s)) then
      onView (setError engineNotReadyMessage) s
    else
      (stopPlayback
       >> onView (setSelectedRecording None)
       >> onView (setError "")
       >> onWorld (λ w, emit EvGetUserMedia
                          (withPendingDevice (S (pendingDevice w)) w))) s.

(** The rest of the [try] block once the device is granted. *)
Definition deviceGranted (c : View) (stream : positive) : St → St :=
  onWorld (λ w, withPendingDevice (pred (pendingDevice w))
                  (withLiveStreams (liveStreams w ++ [stream]) w))
  >> onWorld (withStream (Some stream))
  >> onWorld (withChunks [])
  >> (λ s,
        let p := platform (world s) in
        let mimeType := getSupportedMimeType (isTypeSupported p) in
        let actual := if JsString.truthy mimeType then mimeType
                      else defaultMimeType p in
        onWorld (λ w, emit (EvRecorderStart actual)
                   (withMediaRecorder
                      (Some (mkMediaRecorder actual stream true)) w)) s)
  >> onView (setIsRecording true)
  >> onView (setRecordingTime 0)
  >> setInterval RecordingTick withTimer.

(** The [catch] of [startRecording]. *)
Definition deviceDenied (message : string) : St → St :=
  onWorld (λ w, withPendingDevice (pred (pendingDevice w)) w)
  >> onView (setError ("Failed to start recording: " +:+ message)).

Definition ondataavailable (data : Blob) : St → St :=
  λ s, if decide (0 < blob_size data)
       then onWorld (λ w, withChunks (chunksRef w ++ [data]) w) s
       else s.

Definition recorderOnerror (message : string) : St → St :=
  onView (setError ("Recording failed: " +:+ message)).

Definition recordingTick : St → St :=
  onView (λ v, setRecordingTime (S (recordingTime v)) v).

Definition ffmpegArgs : list string :=
  [ "-i"; "input.file"; "-c:a"; "aac"; "-b:a"; "128k";
    "-movflags"; "+faststart"; "output.m4a" ].

(** [new Blob(chunksRef.current, { type: mediaRecorderRef.current.mimeType })]. *)
Definition initialBlobOf (w : World) (mr : MediaRecorder) : Blob :=
  newBlob (chunksRef w) (mimeType mr).

(** [onstop] up to the first [await]. Without a recorder in the ref the
    first statement throws and nothing is done. *)
Definition onstopBegin (c : View) : St → St :=
  λ s, match mediaRecorderRef (world s) with
       | None => s
       | Some mr =>
           (onView (setAudioBlob (Some (initialBlobOf (world s) mr)))
            >> stopTracks
            >> onView (setIsConverting true)
            >> onView (setError "Converting audio to MP4 (AAC)...")) s
       end.

(** Where the awaited engine calls of the [try] block can throw. *)
Inductive ConvStage := AtWriteFile | AtExec | AtReadFile.

Definition engineCalls (initialBlob : Blob) (upto : ConvStage) : St → St :=
  onWorld (emit (EvFfmpegWriteFile "input.file" initialBlob))
  >> (λ s, match upto with
           | AtWriteFile => s
           | AtExec => onWorld (emit (EvFfmpegExec ffmpegArgs)) s
           | AtReadFile =>
               (onWorld (emit (EvFfmpegExec ffmpegArgs))
                >> onWorld (emit (EvFfmpegReadFile "output.m4a"))) s
           end).

(** The [try] block ran to its end: the engine returned [data] and the
    platform issued the object URL [u]. *)
Definition onstopConverted (c : View) (initialBlob : Blob)
    (data : list Byte.byte) (u : string) : St → St :=
  engineCalls initialBlob AtReadFile
  >> onView (setAudioBlob (Some (mkBlob data "audio/mp4")))
  >> createObjectURL u
  >> onView (setAudioUrl u)
  >> (λ s, if hasOnRecordingComplete (platform (world s))
           then onWorld (emit (EvRecordingComplete (mkBlob data "audio/mp4") u)) s
           else s)
  >> onView (setError "")
  >> onView (setIsConverting false).

(** An engine call threw at [stage]: [catch], then [finally]. *)
Definition onstopFailed (c : View) (initialBlob : Blob) (stage : ConvStage)
    (message : string) : St → St :=
  engineCalls initialBlob stage
  >> onView (setError ("Failed to convert audio: " +:+ message))
  >> (λ s, if JsString.truthy (audioUrl c)
           then revokeObjectURL (audioUrl c) s else s)
  >> onView (setAudioUrl "")
  >> onView (setAudioBlob None)
  >> onView (setIsConverting false).

Definition stopRecording (c : View) : St → St :=
  λ s, match mediaRecorderRef (world s) with
       | Some mr =>
           if isRecording c then
             (onWorld (λ w, emit EvRecorderStop
                (withMediaRecorder
                   (Some (mkMediaRecorder (mimeType mr) (recorderStream mr) false)) w))
              >> onView (setIsRecording false)
              >> (λ s, match timerRef (world s) with
                       | Some id => (clearInterval id >> onWorld (withTimer None)) s
                       | None => s
                       end)) s
           else s
       | None => s
       end.

(** The address [startPlayback] resolves from its closure. *)
Definition urlToPlay (c : View) (p : Platform) : option string :=
  match selectedRecording c with
  | Some r => getRecordingUrl c p r
  | None => Some (audioUrl c)
  end.

(** [startPlayback] up to the promise returned by [play()]. *)
Definition startPlayback (c : View) : St → St :=
  λ s, match audioPlayerRef (world s), urlToPlay c (platform (world s)) with
       | Some _, Some u =>
           if JsString.truthy u then
             ((λ s, if isPlaying c then stopPlayback s else s)
              >> audioSetSrc u
              >> audioSetCrossOrigin "anonymous"
              >> audioLoad
              >> audioPlay u) s
           else s
       | _, _ => s
       end.

(** [.then] of the promise. *)
Definition playResolved : St → St :=
  onView (setIsPlaying true)
  >> onView (setPlaybackTime 0)
  >> (λ s, match playbackTimerRef (world s) with
           | Some id => clearInterval id s
           | None => s
           end)
  >> setInterval PlaybackTick withPlaybackTimer.

(** [.catch] of the promise; [u] is the [urlToPlay] it closed over. *)
Definition playRejected (message u : string) : St → St :=
  onView (setError ("Failed to play audio: " +:+ message +:+ ". URL: " +:+ u))
  >> onView (setIsPlaying false)
  >> (λ s, match playbackTimerRef (world s) with
           | Some id => clearInterval id s
           | None => s
           end).

(** The playback interval's callback. *)
Definition playbackTick : St → St :=
  whenPlayer (λ a, onView (setPlaybackTime (currentTime a))).

Definition handleAudioEnded : St → St :=
  onView (setIsPlaying false)
  >> onView (setPlaybackTime 0)
  >> (λ s, match playbackTimerRef (world s) with
           | Some id => (clearInterval id >> onWorld (withPlaybackTimer None)) s
           | None => s
           end)
  >> onView (setSelectedRecording None).

(** [selectedRecording?._id === recordingId && isPlaying]. *)
Definition isPlayingEntry (c : View) (recordingId : string) : bool :=
  match selectedRecording c with
  | Some r => String.eqb (_id r) recordingId && isPlaying c
  | None => false
  end.

Definition handleFormatChange (c : View) (recordingId newFormat : string)
  : St → St :=
  onView (setRecordingFormats (λ prev, <[recordingId := newFormat]> prev))
  >> (λ s, if isPlayingEntry c recordingId then stopPlayback s else s).

Definition playRecording (c : View) (recording : RecordingEntry) : St → St :=
  λ s, if isPlayingEntry c (_id recording) then stopPlayback s
       else (onView (setSelectedRecording (Some recording))
             >> startPlayback c) s.

(** [handleSubmit] up to the [await fetch]; [name] is the file name
    built from the clock and the blob type. *)
Definition handleSubmit (c : View) (name : string) : St → St :=
  match audioBlob c with
  | None =>
      onView (setError "No audio to submit. Please record something first.")
  | Some b =>
      onView (setError "") >> onWorld (emit (EvUpload b name))
  end.

Definition uploadOk (c : View) : St → St :=
  onView (setError "")
  >> fetchRecordings
  >> onView (setAudioBlob None)
  >> (λ s, if JsString.truthy (audioUrl c)
           then (revokeObjectURL (audioUrl c) >> onView (setAudioUrl "")) s
           else s).

Definition uploadRejected (message : option string) : St → St :=
  onView (setError ("Upload failed: " +:+
    match message with
    | Some m => if JsString.truthy m then m else "Unknown error"
    | None => "Unknown error"
    end)).

Definition uploadNetworkError : St → St :=
  onView (setError "Network error: Could not connect to server.").

(** *** The controls that dispatch the handlers *)

(** The record button: [disabled={!!error || isConverting ||
    !ffmpegRef.current.loaded}], [onClick={isRecording ? stopRecording :
    startRecording}]. *)
Definition recordButtonDisabled (c : View) (w : World) : bool :=
  JsString.truthy (error c) || isConverting c || negb (ffmpegLoaded w).

Definition clickRecord (c : View) : St → St :=
  λ s, if recordButtonDisabled c (world s) then s
       else if isRecording c then stopRecording c s
       else startRecording c s.

(** The local play button, rendered when [audioUrl] is set. *)
Definition clickLocalPlay (c : View) : St → St :=
  λ s, if negb (JsString.truthy (audioUrl c)) || isConverting c then s
       else if isPlaying c && negb (bool_decide (is_Some (selectedRecording c)))
       then stopPlayback s
       else startPlayback c s.

(** An entry's play button: [disabled={isConverting || !isAvailable}]. *)
Definition clickPlayEntry (c : View) (recording : RecordingEntry) : St → St :=
  λ s, match getRecordingUrl c (platform (world s)) recording with
       | Some u =>
           if isConverting c || negb (JsString.truthy u) then s
           else playRecording c recording s
       | None => s
       end.

(** ** The Opus variant of the component

    [WebVoiceRecorderopus.jsx] has no library: one local source, whose
    address is bound to the element by [src={audioUrl}]. Only the
    handlers that differ are given. *)

Module Opus.

Definition startRecording (c : View) : St → St :=
  λ s,
    let '(ok, s) := checkSupport s in
    if negb ok then s
    else if negb (ffmpegLoaded (world s)) then
      onView (setError engineNotReadyMessage) s
    else
      (onView (setError "")
       >> onWorld (λ w, emit EvGetUserMedia
                          (withPendingDevice (S (pendingDevice w)) w))) s.

Definition ffmpegArgs : list string :=
  [ "-i"; "input.file"; "-c:a"; "libopus"; "-b:a"; "64k"; "output.opus" ].

Definition onstopBegin (c : View) : St → St :=
  λ s, match mediaRecorderRef (world s) with
       | None => s
       | Some mr =>
           (onView (setAudioBlob (Some (initialBlobOf (world s) mr)))
            >> stopTracks
            >> onView (setIsConverting true)
            >> onView (setError "Converting audio to OPUS...")) s
       end.

Definition engineCalls (initialBlob : Blob) (upto : ConvStage) : St → St :=
  onWorld (emit (EvFfmpegWriteFile "input.file" initialBlob))
  >> (λ s, match upto with
           | AtWriteFile => s
           | AtExec => onWorld (emit (EvFfmpegExec ffmpegArgs)) s
           | AtReadFile =>
               (onWorld (emit (EvFfmpegExec ffmpegArgs))
                >> onWorld (emit (EvFfmpegReadFile "output.opus"))) s
           end).

Definition onstopConverted (c : View) (initialBlob : Blob)
    (data : list Byte.byte) (u : string) : St → St :=
  engineCalls initialBlob AtReadFile
  >> onView (setAudioBlob (Some (mkBlob data "audio/opus")))
  >> createObjectURL u
  >> onView (setAudioUrl u)
  >> (λ s, if hasOnRecordingComplete (platform (world s))
           then onWorld (emit (EvRecordingComplete (mkBlob data "audio/opus") u)) s
           else s)
  >> onView (setError "")
  >> onView (setIsConverting false).

(** [catch], then [finally]: the error is reported, nothing else. *)
Definition onstopFailed (c : View) (initialBlob : Blob) (stage : ConvStage)
    (message : string) : St → St :=
  engineCalls initialBlob stage
  >> onView (setError ("Failed to convert audio to OPUS: " +:+ message))
  >> onView (setIsConverting false).

Definition startPlayback (c : View) : St → St :=
  λ s, match audioPlayerRef (world s) with
       | Some _ =>
           if JsString.truthy (audioUrl c) then
             (audioPlay (audioUrl c)
              >> onView (setIsPlaying true)
              >> onView (setPlaybackTime 0)
              >> setInterval PlaybackTick withPlaybackTimer) s
           else s
       | None => s
       end.

Definition stopPlayback : St → St :=
  whenPlayer (λ _, audioPause >> audioSeek 0)
  >> onView (setIsPlaying false)
  >> onView (setPlaybackTime 0)
  >> (λ s, match playbackTimerRef (world s) with
           | Some id => (clearInterval id >> onWorld (withPlaybackTimer None)) s
           | None => s
           end).

(** Both effects of the variant depend on [[audioUrl]] and return the
    same cleanup, so it runs twice per change. *)
Definition commit (c : View) : St → St :=
  λ s, if decide (audioUrl (view s) = audioUrl c) then s
       else (effectCleanup c >> effectCleanup c >> loadFFmpeg) s.

End Opus.

(** ** The spec's vocabulary, read off the component state *)

Inductive PipelineState :=
| Idle | AcquiringDevice | Recording | Converting | Ready | Failed.

(** The pipeline phase a state is in. The component keeps no phase
    variable; [Failed] is never taken. *)
Definition pipelineState (v : View) (w : World) : PipelineState :=
  if isConverting v then Converting
  else if isRecording v then Recording
  else if decide (0 < pendingDevice w) then AcquiringDevice
  else if JsString.truthy (audioUrl v) then Ready
  else Idle.

Inductive Source :=
| NoSource
| LocalArtifact
| LibraryEntry (r : RecordingEntry) (tag : string).

(** What the component treats as playing: the local recording when
    [isPlaying && !selectedRecording], the selected entry when
    [selectedRecording && isPlaying]. *)
Definition activeSource (v : View) : Source :=
  if isPlaying v then
    match selectedRecording v with
    | Some r => LibraryEntry r (selectedFormat v r)
    | None => LocalArtifact
    end
  else NoSource.

(** The playback slot of the spec: source, playing flag, elapsed time. *)
Definition playbackSlot (v : View) : Source * bool * nat :=
  (activeSource v, isPlaying v, playbackTime v).

(** The local artifact a state exposes: the blob and its address. *)
Definition exposedArtifact (v : View) : option Blob * string :=
  (audioBlob v, audioUrl v).

(** Whether the local playback section (and its play control) is offered. *)
Definition localPlaybackOffered (v : View) : bool := JsString.truthy (audioUrl v).

(** *** Reading logs *)

Definition isRevokeOf (u : string) (e : Event) : bool :=
  match e with EvRevokeObjectURL x => String.eqb x u | _ => false end.
Definition isCreateOf (u : string) (e : Event) : bool :=
  match e with EvCreateObjectURL x => String.eqb x u | _ => false end.
Definition isSetSrc (e : Event) : bool :=
  match e with EvSetSrc _ => true | _ => false end.
Definition isGetUserMedia (e : Event) : bool :=
  match e with EvGetUserMedia => true | _ => false end.

Definition countEv (p : Event → bool) (l : list Event) : nat :=
  length (List.filter p l).

(** The events [f] appends to the log of [s]. *)
Definition emitted (f : St → St) (s : St) : list Event :=
  drop (length (log (world s))) (log (world (f s))).

(** What [stopPlayback] issues on a world: the element, when mounted,
    is paused and rewound; the playback timer, when set, is cleared. *)
Definition stopEvents (w : World) : list Event :=
  match audioPlayerRef w with
  | Some _ => [EvPause; EvSeek 0]
  | None => []
  end ++
  match playbackTimerRef w with
  | Some id => [EvClearInterval id]
  | None => []
  end.

(** [old] is released before [new] is created: the first of the two
    events in [l] is the release, and the creation follows it. *)
Fixpoint releasedBeforeCreated (old new : string) (l : list Event) : bool :=
  match l with
  | [] => false
  | e :: l' =>
      if isRevokeOf old e then existsb (isCreateOf new) l'
      else if isCreateOf new e then false
      else releasedBeforeCreated old new l'
  end.

(** Handlers that neither store a local address nor issue one. *)
Definition keeps (f : St → St) : Prop :=
  ∀ s, audioUrl (view (f s)) = audioUrl (view s)
       ∧ issued (world (f s)) = issued (world s).

(** ** Tasks: what the event loop can run *)

Inductive Task :=
| ClickRecord
| DeviceGranted (c : View) (stream : positive)
| DeviceDenied (message : string)
| DataAvailable (data : Blob)
| RecorderStopped (c : View)
| Converted (c : View) (initialBlob : Blob) (data : list Byte.byte) (u : string)
| ConversionFailed (c : View) (initialBlob : Blob) (stage : ConvStage)
    (message : string)
| RecorderError (message : string)
| TickRecording
| TickPlayback
| ClickLocalPlay
| ClickPlayEntry (recording : RecordingEntry)
| PlayResolved
| PlayRejected (message : string)
| AudioEnded
| TimeUpdate (t : nat)
| FormatChange (recordingId newFormat : string)
| ClickSubmit (name : string)
| UploadOk (c : View)
| UploadRejected (message : option string)
| UploadNetworkError
| Fetched (data : list RecordingEntry)
| EngineLoaded
| EngineLoadFailed.

(** The oldest pending play promise settles and its reaction runs. *)
Definition settlePlay (reaction : PlayPromise → St → St) : St → St :=
  λ s, match pendingPlays (world s) with
       | p :: rest => reaction p (onWorld (withPendingPlays rest) s)
       | [] => s
       end.

(** The message of the [AbortError] an aborted [play()] rejects with. *)
Definition abortMessage : string :=
  "The play() request was interrupted".

Fixpoint rejectAll (l : list PlayPromise) : St → St :=
  match l with
  | [] => λ s, s
  | p :: l' => λ s, rejectAll l' (playRejected abortMessage (playUrl p) s)
  end.

(** The reactions of the promises aborted during a task run right
    after it, before any other task. *)
Definition settleAborted : St → St :=
  λ s, rejectAll (List.filter aborted (pendingPlays (world s)))
         (onWorld (withPendingPlays
            (List.filter (λ p, negb (aborted p)) (pendingPlays (world s)))) s).

(** The handler of a task. [c] is the latest render, which the handlers
    of controls close over; continuations of asynchronous handlers
    carry the render of the call they continue. *)
Definition handler (t : Task) (c : View) : St → St :=
  match t with
  | ClickRecord => clickRecord c
  | DeviceGranted c0 stream => deviceGranted c0 stream
  | DeviceDenied m => deviceDenied m
  | DataAvailable d => ondataavailable d
  | RecorderStopped c0 => onstopBegin c0
  | Converted c0 ib data u => onstopConverted c0 ib data u
  | ConversionFailed c0 ib st m => onstopFailed c0 ib st m
  | RecorderError m => recorderOnerror m
  | TickRecording => recordingTick
  | TickPlayback => playbackTick
  | ClickLocalPlay => clickLocalPlay c
  | ClickPlayEntry r => clickPlayEntry c r
  | PlayResolved => settlePlay (λ _, playResolved)
  | PlayRejected m => settlePlay (λ p, playRejected m (playUrl p))
  | AudioEnded => audioEnds >> handleAudioEnded
  | TimeUpdate t => audioProgress t
  | FormatChange i f => handleFormatChange c i f
  | ClickSubmit n => handleSubmit c n
  | UploadOk c0 => uploadOk c0
  | UploadRejected m => uploadRejected m
  | UploadNetworkError => uploadNetworkError
  | Fetched d => fetchRecordingsOk d
  | EngineLoaded => loadFFmpegResolved
  | EngineLoadFailed => loadFFmpegRejected
  end.

(** An object URL handed out by the platform is new and non-empty. *)
Definition freshUrl (u : string) (w : World) : Prop :=
  (u ∉ issued w) ∧ JsString.truthy u = true.

Definition enabled (t : Task) (s : St) : Prop :=
  match t with
  | Converted _ _ _ u => freshUrl u (world s)
  | TickRecording => ∃ id, (id, RecordingTick) ∈ intervals (world s)
  | TickPlayback => ∃ id, (id, PlaybackTick) ∈ intervals (world s)
  | _ => True
  end.

(** One turn of the event loop: the task's handler on the latest
    render, the reactions of the promises it aborted, then the render
    this causes. *)
Definition next (t : Task) (s : St) : St :=
  commit (view s) (settleAborted (handler t (view s) s)).

Inductive steps : St → St → Prop :=
| steps_refl s : steps s s
| steps_next s t s' : enabled t s → steps (next t s) s' → steps s s'.

(** The world right after mount, before the engine has loaded. *)
Definition mountedWorld (p : Platform) : World :=
  mkWorld p (Some (mkAudio "" 0 true)) None None [] None None false []
    1%positive [] [] 0 [] [].

(** Mounting runs the effect once. *)
Definition mount (p : Platform) : St :=
  effectBody (mkSt initialView (mountedWorld p)).

Inductive reachable : St → Prop :=
| reach_mount p : reachable (mount p)
| reach_next s t : reachable s → enabled t s → reachable (next t s).

(** What holds of the playback state between tasks: a stopped slot has
    its elapsed time at zero, a playback timer runs only while playing
    and is the one in the ref, and while a [play()] promise is pending
    nothing counts as playing. *)
Definition playbackInv (s : St) : Prop :=
  (isPlaying (view s) = false → playbackTime (view s) = 0)
  ∧ (∀ id, (id, PlaybackTick) ∈ intervals (world s) →
           playbackTimerRef (world s) = Some id ∧ isPlaying (view s) = true)
  ∧ (pendingPlays (world s) ≠ [] → isPlaying (view s) = false)
  ∧ (length (List.filter (λ p, negb (aborted p)) (pendingPlays (world s)))
     <= 1)%nat.

(** Between tasks no aborted promise is left waiting. *)
Definition settled (s : St) : Prop :=
  Forall (λ p, aborted p = false) (pendingPlays (world s)).

(** ** Sample states *)

Definition desktop : Platform :=
  mkPlatform "localhost" true true (λ m, String.eqb m "audio/webm")
    "audio/webm" false.

(** The engine has loaded. *)
Definition readyWorld (p : Platform) : World :=
  withFfmpegLoaded true (mountedWorld p).

Definition entryA : RecordingEntry :=
  mkRecording "a1" "a.m4a" None
    (Some (mkVariant (Some "http://10.0.2.2:5000/files/a.mp3")
             (Some "audio/mpeg") (Some 2048)))
    None.

(** The local recording "blob:1" is playing at second 5, its timer is
    timer 1. *)
Definition playingLocalView : View :=
  mkView false true 0 5 (Some (mkBlob [] "audio/mp4")) "blob:1" "" false
    None [entryA] ∅.
Definition playingWorld : World :=
  mkWorld desktop (Some (mkAudio "blob:1" 5 false)) None None [] None
    (Some 1%positive) true [(1%positive, PlaybackTick)] 2%positive []
    ["blob:1"] 0 [] [].

(** A platform without [MediaRecorder]. *)
Definition noRecorder : Platform :=
  mkPlatform "localhost" true false (λ _, false) "" false.

Definition chunk1 : Blob := mkBlob [Byte.x01] "audio/webm".
Definition chunk2 : Blob := mkBlob [Byte.x02; Byte.x03] "audio/webm".
Definition chunk3 : Blob := mkBlob [Byte.x04] "audio/webm".

(** A capture is running: three one-second chunks so far, an earlier
    recording "blob:1" still stored. *)
Definition recordingView : View :=
  mkView true false 3 0 (Some (mkBlob [Byte.x00] "audio/mp4")) "blob:1" ""
    false None [] ∅.
Definition recordingWorld : World :=
  mkWorld desktop (Some (mkAudio "blob:1" 0 true))
    (Some (mkMediaRecorder "audio/webm" 1%positive true)) (Some 1%positive)
    [chunk1; chunk2; chunk3] (Some 2%positive) None true
    [(2%positive, RecordingTick)] 3%positive [1%positive] ["blob:1"] 0 [] [].

(** The capture above has been ended; the stop event is still to come. *)
Definition stoppedView : View :=
  mkView false false 3 0 (Some (mkBlob [Byte.x00] "audio/mp4")) "blob:1" ""
    false None [] ∅.
Definition stoppedWorld : World :=
  mkWorld desktop (Some (mkAudio "blob:1" 0 true))
    (Some (mkMediaRecorder "audio/webm" 1%positive false)) (Some 1%positive)
    [chunk1; chunk2; chunk3] None None true [] 3%positive [1%positive]
    ["blob:1"] 0 [] [].
Definition rawCapture : Blob :=
  mkBlob [Byte.x01; Byte.x02; Byte.x03; Byte.x04] "audio/webm".

(** The same moment in the Opus variant, with an earlier Opus artifact. *)
Definition opusStoppedView : View :=
  mkView false false 3 0 (Some (mkBlob [Byte.x00] "audio/opus")) "blob:1" ""
    false None [] ∅.

(** The capture of [recordingView] ended and transcoded to [data],
    stored under [u], with the renders in between. *)
Definition recordedAndConverted (data : list Byte.byte) (u : string) : St :=
  let s1 := commit recordingView
              (stopRecording recordingView (mkSt recordingView recordingWorld)) in
  let s2 := commit (view s1) (onstopBegin recordingView s1) in
  commit (view s2) (onstopConverted recordingView rawCapture data u s2).

(** The entry [entryA] is selected and playing. *)
Definition playingEntryView : View :=
  mkView false true 0 5 None "" "" false (Some entryA) [entryA] ∅.

(** ** What the component displays *)

(** [Number.isSafeInteger(n)] for a non-negative integer. On safe
    integers the arithmetic of doubles used below ([/] followed by
    [Math.floor], [%]) is integer arithmetic, and [toString] gives the
    decimal digits. A count of seconds and a clock reading are safe. *)
Definition isSafeInteger (n : N) : bool := (n <? 2 ^ 53)%N.

(** [n.toString()] of a safe integer: its decimal digits. *)
Definition toString (n : N) : string :=
  NilEmpty.string_of_uint (N.to_uint n).

(** The filler of [padStart]: [fillString] repeated and cut to [n]
    characters; [rest] is what is left of the current repetition. *)
Fixpoint filler (fillString rest : string) (n : nat) : string :=
  match n with
  | 0 => ""
  | S n' =>
      match rest with
      | String ch rest' => String ch (filler fillString rest' n')
      | EmptyString =>
          match fillString with
          | String ch rest' => String ch (filler fillString rest' n')
          | EmptyString => ""
          end
      end
  end.

(** [s.padStart(maxLength, fillString)]. *)
Definition padStart (maxLength : nat) (fillString s : string) : string :=
  if (maxLength <=? String.length s)%nat then s
  else if negb (JsString.truthy fillString) then s
  else filler fillString fillString (maxLength - String.length s) +:+ s.

(** [formatTime]; both call sites pass a whole number of seconds,
    [recordingTime] and [playbackTime]. *)
Definition formatTime (seconds : nat) : string :=
  let mins := (seconds / 60)%nat in
  let secs := (seconds mod 60)%nat in
  padStart 2 "0" (toString (N.of_nat mins)) +:+ ":"
  +:+ padStart 2 "0" (toString (N.of_nat secs)).

(** The two-digit rendering the display is meant to show: the decimal
    digit [d] as a character, and [n] below one hundred as two digits. *)
Definition digit (d : nat) : ascii := ascii_of_nat (48 + d).
Definition twoDigits (n : nat) : string :=
  String (digit (n / 10)) (String (digit (n mod 10)) "").

(** ** The upload's file name and the submit control *)

(** [s.split(sep)] for a one-character separator. *)
Fixpoint jsSplit (sep : ascii) (s : string) : list string :=
  match s with
  | EmptyString => [""]
  | String ch s' =>
      if Ascii.eqb ch sep then "" :: jsSplit sep s'
      else match jsSplit sep s' with
           | piece :: pieces => String ch piece :: pieces
           | [] => [String ch ""]
           end
  end.

(** [audioBlob.type.split("/")[1] || "m4a"]. *)
Definition submitExtension (type : string) : string :=
  match jsSplit "/" type !! 1%nat with
  | Some ext => if JsString.truthy ext then ext else "m4a"
  | None => "m4a"
  end.

(** The file name of [handleSubmit]; [now] is [Date.now()]. *)
Definition submitFilename (now : N) (type : string) : string :=
  "recording_" +:+ toString now +:+ "." +:+ submitExtension type.

(** The submit button: rendered when [audioUrl] is set,
    [disabled={isConverting || !audioBlob}], [onClick={handleSubmit}]. *)
Definition clickSubmit (c : View) (now : N) : St → St :=
  λ s, if negb (JsString.truthy (audioUrl c)) || isConverting c then s
       else match audioBlob c with
            | Some b => handleSubmit c (submitFilename now (blob_type b)) s
            | None => s
            end.

(** ** Runs of recorder events *)

(** What happens during a capture: the recording timer ticks, the
    recorder delivers a chunk. *)
Inductive RecorderEvent :=
| Tick
| Data (d : Blob).

Definition recorderEvent (e : RecorderEvent) : St → St :=
  match e with
  | Tick => recordingTick
  | Data d => ondataavailable d
  end.

(** The events [es] in the order they arrive. *)
Definition runRecorder (es : list RecorderEvent) : St → St :=
  λ s, foldl (λ s e, recorderEvent e s) s es.

Definition ticksOf (es : list RecorderEvent) : nat :=
  length (List.filter (λ e, match e with Tick => true | Data _ => false end) es).

Definition bytesOf (es : list RecorderEvent) : list Byte.byte :=
  concat (map (λ e, match e with Tick => [] | Data d => blob_bytes d end) es).

(** *** More log readers *)

Definition isFetchRecordings (e : Event) : bool :=
  match e with EvFetchRecordings => true | _ => false end.
Definition isRevoke (e : Event) : bool :=
  match e with EvRevokeObjectURL _ => true | _ => false end.
Definition isFfmpegLoad (e : Event) : bool :=
  match e with EvFfmpegLoad => true | _ => false end.

(** What clearing the playback timer issues. *)
Definition clearEvents (w : World) : list Event :=
  match playbackTimerRef w with
  | Some id => [EvClearInterval id]
  | None => []
  end.

(** The tasks that report a failure to the user. *)
Definition reportsFailure (t : Task) : bool :=
  match t with
  | DeviceDenied _ | RecorderError _ | ConversionFailed _ _ _ _
  | UploadRejected _ | UploadNetworkError | EngineLoadFailed => true
  | _ => false
  end.

(** *** More sample states *)

(** A platform without [getUserMedia]. *)
Definition noDevices : Platform :=
  mkPlatform "localhost" false true (λ _, false) "" false.

(** A platform that supports none of the preferred containers and
    whose recorders report their type in mixed case. *)
Definition mixedCase : Platform :=
  mkPlatform "localhost" true true (λ _, false) "Audio/WebM" false.

(** An entry stored in both variants. *)
Definition entryB : RecordingEntry :=
  mkRecording "b2" "b.m4a" (Some "talk.m4a")
    (Some (mkVariant (Some "http://10.0.2.2:5000/files/b.mp3")
             (Some "audio/mpeg") (Some 4096)))
    (Some (mkVariant (Some "http://10.0.2.2:5000/files/b.mp4")
             (Some "audio/mp4") (Some 3072))).

(** An entry whose MP3 variant has no address. *)
Definition entryC : RecordingEntry :=
  mkRecording "c3" "c.m4a" None (Some (mkVariant (Some "") None None)) None.

(** Nothing plays; the library shows [entryA] and [entryB], the MP4
    variant being chosen for [entryB]. *)
Definition libraryView : View :=
  mkView false false 0 0 None "" "" false None [entryA; entryB]
    {[ "b2" := "mp4" ]}.

(** A converted recording "blob:1" is stored and nothing plays. *)
Definition readyView : View :=
  mkView false false 3 0 (Some (mkBlob [Byte.x2a] "audio/mp4")) "blob:1" ""
    false None [] ∅.
Definition idleWorld : World :=
  mkWorld desktop (Some (mkAudio "" 0 true)) None None [] None None true []
    1%positive [] ["blob:1"] 0 [] [].

(** Handlers that leave a loaded engine loaded and do not load it
    again. *)
Definition loadsNothing (f : St → St) : Prop :=
  ∀ s, ffmpegLoaded (world s) = true →
       ffmpegLoaded (world (f s)) = true
       ∧ countEv isFfmpegLoad (log (world (f s)))
         = countEv isFfmpegLoad (log (world s)).

(** From mount: the engine loads, then a transcode succeeds and its
    output is stored under "blob:1". *)
Definition convertedState : St :=
  next (Converted initialView rawCapture [Byte.x2a] "blob:1")
    (next EngineLoaded (mount desktop)).

(** Then the library is fetched and the local recording is played: the
    element has started and plays "blob:1". *)
Definition localPlayingState : St :=
  next PlayResolved
    (next ClickLocalPlay (next (Fetched [entryA]) convertedState)).

(** Outside a conversion the stored blob, if any, is a transcoded one. *)
Definition blobInv (s : St) : Prop :=
  isConverting (view s) = false →
  audioBlob (view s) = None
  ∨ ∃ data, audioBlob (view s) = Some (mkBlob data "audio/mp4").

(** * Properties *)

(** ** Proof automation *)

(** Handlers unfold only on a state given by its fields, so that a
    stuck conditional is analysed before the code after it runs. *)
Arguments blobType : simpl never.
Arguments onView f !s /.
Arguments onWorld f !s /.
Arguments andThen f g !s /.
Arguments whenPlayer f !s /.
Arguments audioPause !s /.
Arguments audioSeek t !s /.
Arguments audioSetSrc u !s /.
Arguments audioLoad !s /.
Arguments audioPlay u !s /.
Arguments audioSetCrossOrigin mode !s /.
Arguments audioProgress t !s /.
Arguments audioEnds !s /.
Arguments settlePlay reaction !s /.
Arguments rejectAll !l !s /.
Arguments settleAborted !s /.
Arguments clearInterval id !s /.
Arguments setInterval k store !s /.
Arguments stopTracks !s /.
Arguments createObjectURL u !s /.
Arguments revokeObjectURL u !s /.
Arguments loadFFmpeg !s /.
Arguments loadFFmpegResolved !s /.
Arguments loadFFmpegRejected !s /.
Arguments fetchRecordings !s /.
Arguments fetchRecordingsOk data !s /.
Arguments effectCleanup c !s /.
Arguments effectBody !s /.
Arguments commit c !s /.
Arguments checkSupport !s /.
Arguments stopPlayback !s /.
Arguments startRecording c !s /.
Arguments deviceGranted c stream !s /.
Arguments deviceDenied message !s /.
Arguments ondataavailable data !s /.
Arguments recorderOnerror message !s /.
Arguments recordingTick !s /.
Arguments onstopBegin c !s /.
Arguments engineCalls initialBlob upto !s /.
Arguments onstopConverted c initialBlob data u !s /.
Arguments onstopFailed c initialBlob stage message !s /.
Arguments stopRecording c !s /.
Arguments startPlayback c !s /.
Arguments playResolved !s /.
Arguments playRejected message u !s /.
Arguments playbackTick !s /.
Arguments handleAudioEnded !s /.
Arguments handleFormatChange c recordingId newFormat !s /.
Arguments playRecording c recording !s /.
Arguments handleSubmit c name !s /.
Arguments uploadOk c !s /.
Arguments uploadRejected message !s /.
Arguments uploadNetworkError !s /.
Arguments clickRecord c !s /.
Arguments clickLocalPlay c !s /.
Arguments clickPlayEntry c recording !s /.
Arguments Opus.startRecording c !s /.
Arguments Opus.onstopBegin c !s /.
Arguments Opus.engineCalls initialBlob upto !s /.
Arguments Opus.onstopConverted c initialBlob data u !s /.
Arguments Opus.onstopFailed c initialBlob stage message !s /.
Arguments Opus.startPlayback c !s /.
Arguments Opus.stopPlayback !s /.
Arguments Opus.commit c !s /.
Arguments next t !s /.
Arguments handler !t c /.
Arguments emit e !w /.
Arguments withPlayer a !w /.
Arguments withMediaRecorder m !w /.
Arguments withStream s !w /.
Arguments withChunks c !w /.
Arguments withTimer t !w /.
Arguments withPlaybackTimer t !w /.
Arguments withFfmpegLoaded b !w /.
Arguments withIntervals l !w /.
Arguments withNextId n !w /.
Arguments withLiveStreams l !w /.
Arguments withIssued l !w /.
Arguments withPendingDevice n !w /.
Arguments withPendingPlays l !w /.
Arguments setIsRecording b !v /.
Arguments setIsPlaying b !v /.
Arguments setRecordingTime n !v /.
Arguments setPlaybackTime n !v /.
Arguments setAudioBlob b !v /.
Arguments setAudioUrl u !v /.
Arguments setError e !v /.
Arguments setIsConverting b !v /.
Arguments setSelectedRecording r !v /.
Arguments setRecordingsList l !v /.
Arguments setRecordingFormats f !v /.

Ltac open_st s :=
  destruct s as
    [[vRec vPlay vRt vPt vBlob vUrl vErr vConv vSel vList vFmt]
     [wP wAudio wMr wStream wChunks wTimer wPTimer wLoaded wIntervals wNext
      wLive wIssued wPD wPP wLog]].

Ltac open_world w :=
  destruct w as
    [wP wAudio wMr wStream wChunks wTimer wPTimer wLoaded wIntervals wNext
     wLive wIssued wPD wPP wLog].

Ltac open_view :=
  unfold setIsRecording, setIsPlaying, setRecordingTime, setPlaybackTime,
    setAudioBlob, setAudioUrl, setError, setIsConverting, setSelectedRecording,
    setRecordingsList, setRecordingFormats; cbn.

Ltac run := cbn -[filter].

Ltac is_stuck x :=
  lazymatch x with
  | context [mkSt _ _] => fail
  | context [match _ with _ => _ end] => fail
  | _ => idtac
  end.

Ltac split_all :=
  repeat (match goal with
          | |- context [match ?x with _ => _ end] =>
              is_stuck x;
              lazymatch type of x with
              | bool => destruct x eqn:?
              | option _ => destruct x eqn:?
              | sumbool _ _ => destruct x
              | ConvStage => destruct x
              | list PlayPromise => is_var x; destruct x
              end
          end; run).

(** The log read back: what was appended to [wLog]. *)
Ltac read_log :=
  unfold emitted; run; rewrite <- ?app_assoc, ?drop_app_length, ?drop_all; run.

Ltac by_cases s := open_st s; run; split_all.

(** ** First-occurrence replacement *)

Module JsStringFacts.
Import JsString.

#[local] Arguments String.append !_ _ / : simpl nomatch.

Lemma strip_prefix_app p r : strip_prefix p (p +:+ r) = Some r.
Proof.
  induction p as [|a p IH]; simpl; [reflexivity|].
  now rewrite Ascii.eqb_refl.
Qed.

Lemma strip_prefix_Some p s r : strip_prefix p s = Some r → s = p +:+ r.
Proof.
  revert s. induction p as [|a p IH]; intros s H; simpl in *.
  - now injection H as ->.
  - destruct s as [|b s]; [discriminate|].
    destruct (Ascii.eqb a b) eqn:E; [|discriminate].
    apply Ascii.eqb_eq in E. subst b. simpl. f_equal. now apply IH.
Qed.

Lemma strip_prefix_None p s r : strip_prefix p s = None → s ≠ p +:+ r.
Proof.
  intros H ->. rewrite strip_prefix_app in H. discriminate.
Qed.

Lemma occurs_after_nil pat s :
  occurs_after pat "" s → strip_prefix pat s ≠ None.
Proof.
  intros [post ->] H. simpl in H. now apply (strip_prefix_None _ _ post) in H.
Qed.

Lemma occurs_after_cons pat a pre b s :
  occurs_after pat (String a pre) (String b s) → occurs_after pat pre s.
Proof. intros [post H]. simpl in H. injection H as _ ->. now exists post. Qed.

Lemma first_replaced_cons pat rep c s s' :
  strip_prefix pat (String c s) = None →
  first_replaced pat rep s s' →
  first_replaced pat rep (String c s) (String c s').
Proof.
  intros E H. destruct H as [pre post Hmin | s Hmiss].
  - change (first_replaced pat rep (String c pre +:+ pat +:+ post)
              (String c pre +:+ rep +:+ post)).
    apply fr_hit. intros [|a pre'] Hocc.
    + now apply occurs_after_nil in Hocc.
    + apply occurs_after_cons in Hocc. apply Hmin in Hocc. simpl; lia.
  - apply fr_miss. intros [|a pre'] Hocc.
    + now apply occurs_after_nil in Hocc.
    + apply occurs_after_cons in Hocc. now apply Hmiss in Hocc.
Qed.

(** [replace] replaces the first occurrence, and only that. *)
Lemma replace_first_replaced pat rep s :
  first_replaced pat rep s (replace pat rep s).
Proof.
  induction s as [|c s IH]; simpl.
  - destruct (strip_prefix pat "") as [rest|] eqn:E.
    + apply strip_prefix_Some in E. rewrite E at 1.
      apply (fr_hit pat rep "" rest). intros; simpl; lia.
    + apply fr_miss. intros [|a pre] Hocc.
      * now apply occurs_after_nil in Hocc.
      * destruct Hocc as [post H]. discriminate.
  - destruct (strip_prefix pat (String c s)) as [rest|] eqn:E.
    + apply strip_prefix_Some in E. rewrite E at 1.
      apply (fr_hit pat rep "" rest). intros; simpl; lia.
    + now apply first_replaced_cons.
Qed.

Lemma app_same_length_inv p1 p2 x y :
  p1 +:+ x = p2 +:+ y → String.length p1 = String.length p2 →
  p1 = p2 ∧ x = y.
Proof.
  revert p2. induction p1 as [|a p1 IH]; intros [|b p2] H L;
    simpl in *; try discriminate.
  - auto.
  - injection H as -> H. injection L as L.
    destruct (IH _ H L) as [-> ->]. auto.
Qed.

(** The relation determines its result: there is one first occurrence. *)
Lemma first_replaced_functional pat rep s s1 s2 :
  first_replaced pat rep s s1 → first_replaced pat rep s s2 → s1 = s2.
Proof.
  intros H1 H2.
  destruct H1 as [pre1 post1 Hmin1 | s Hmiss1].
  - remember (pre1 +:+ pat +:+ post1) as s eqn:Es.
    destruct H2 as [pre2 post2 Hmin2 | s Hmiss2].
    + assert (L1 : (String.length pre1 <= String.length pre2)%nat).
      { apply Hmin1. now exists post2. }
      assert (L2 : (String.length pre2 <= String.length pre1)%nat).
      { apply Hmin2. now exists post1. }
      destruct (app_same_length_inv _ _ _ _ Es ltac:(lia)) as [-> E].
      apply (inj (String.append pat)) in E. now subst.
    + exfalso. apply (Hmiss2 pre1). now exists post1.
  - destruct H2 as [pre2 post2 Hmin2 | s Hmiss2]; [|reflexivity].
    exfalso. apply (Hmiss1 pre2). now exists post2.
Qed.

Lemma replace_truthy pat rep s :
  truthy rep = true → truthy s = true → truthy (replace pat rep s) = true.
Proof.
  intros Hr Hs. destruct s as [|c s]; [discriminate|]. simpl.
  destruct (strip_prefix pat (String c s)); [|reflexivity].
  destruct rep; [discriminate|reflexivity].
Qed.

End JsStringFacts.

(** ** Address normalization *)

(** C10. [normalizeServerUrl] answers null for a null or empty address.
    For a non-empty address it answers the address with the first
    occurrence of "10.0.2.2" replaced by "localhost" when the runtime's
    hostname is "localhost", with the first occurrence of "localhost"
    replaced by "10.0.2.2" when the hostname is "10.0.2.2", and the
    address itself for every other hostname. *)
Theorem normalizeServerUrl_spec (host : string) (address : option string) :
  ((address = None ∨ address = Some "") →
     normalizeServerUrl host address = None)
  ∧ (∀ u, address = Some u → u ≠ "" →
       (host = "localhost" →
          ∃ u', normalizeServerUrl host address = Some u'
                ∧ JsString.first_replaced "10.0.2.2" "localhost" u u')
       ∧ (host = "10.0.2.2" →
          ∃ u', normalizeServerUrl host address = Some u'
                ∧ JsString.first_replaced "localhost" "10.0.2.2" u u')
       ∧ (host ≠ "localhost" → host ≠ "10.0.2.2" →
          normalizeServerUrl host address = Some u)).
Proof.
  split.
  - intros [-> | ->]; reflexivity.
  - intros u -> Hu. unfold normalizeServerUrl.
    assert (JsString.truthy u = true) as -> by (destruct u; [congruence|reflexivity]).
    simpl negb. cbv iota.
    repeat split.
    + intros ->. simpl. eexists; split; [reflexivity|].
      apply JsStringFacts.replace_first_replaced.
    + intros ->. simpl. eexists; split; [reflexivity|].
      apply JsStringFacts.replace_first_replaced.
    + intros H1 H2.
      destruct (String.eqb_spec host "localhost"); [contradiction|].
      destruct (String.eqb_spec host "10.0.2.2"); [contradiction|].
      reflexivity.
Qed.

Lemma normalizeServerUrl_spec_witness :
  normalizeServerUrl "localhost" None = None
  ∧ (∃ u', normalizeServerUrl "localhost"
             (Some "http://10.0.2.2:5000/a/10.0.2.2.mp3") = Some u'
           ∧ JsString.first_replaced "10.0.2.2" "localhost"
               "http://10.0.2.2:5000/a/10.0.2.2.mp3" u')
  ∧ normalizeServerUrl "example.org" (Some "http://localhost:5000/a.mp3")
    = Some "http://localhost:5000/a.mp3".
Proof.
  split; [|split].
  - apply (proj1 (normalizeServerUrl_spec "localhost" None)). left; reflexivity.
  - apply (proj2 (normalizeServerUrl_spec "localhost"
                    (Some "http://10.0.2.2:5000/a/10.0.2.2.mp3")) _ eq_refl).
    + discriminate.
    + reflexivity.
  - apply (proj2 (normalizeServerUrl_spec "example.org"
                    (Some "http://localhost:5000/a.mp3")) _ eq_refl);
      discriminate.
Defined.

(** The first occurrence only: a second "10.0.2.2" stays. *)
Example normalizeServerUrl_first_only :
  normalizeServerUrl "localhost" (Some "http://10.0.2.2:5000/a/10.0.2.2.mp3")
  = Some "http://localhost:5000/a/10.0.2.2.mp3".
Proof. reflexivity. Qed.

(** A resolved address is never the empty string. *)
Lemma normalizeServerUrl_truthy host address u :
  normalizeServerUrl host address = Some u → JsString.truthy u = true.
Proof.
  unfold normalizeServerUrl. destruct address as [a|]; [|discriminate].
  destruct (JsString.truthy a) eqn:Ha; simpl; [|discriminate].
  destruct (String.eqb host "localhost").
  - intros [= <-]. now apply JsStringFacts.replace_truthy.
  - destruct (String.eqb host "10.0.2.2"); intros [= <-]; [|assumption].
    now apply JsStringFacts.replace_truthy.
Qed.

(** ** Container preference *)

Lemma firstSupported_hit sup (pre : list string) m post :
  Forall (λ x, sup x = false) pre → sup m = true →
  firstSupported sup (pre ++ m :: post)%list = m.
Proof.
  induction 1 as [|x pre Hx _ IH]; intros Hm; simpl.
  - now rewrite Hm.
  - rewrite Hx. now apply IH.
Qed.

Lemma firstSupported_miss sup types :
  Forall (λ x, sup x = false) types → firstSupported sup types = "".
Proof. induction 1 as [|x l Hx _ IH]; simpl; [reflexivity|now rewrite Hx]. Qed.

(** C7. [getSupportedMimeType] returns the first entry of the fixed
    preference list that the platform reports as supported, and the
    empty choice (platform default) when none of them is. *)
Theorem getSupportedMimeType_first_supported (sup : string → bool) :
  (∀ (pre : list string) m post,
      possibleTypes = (pre ++ m :: post)%list →
      Forall (λ x, sup x = false) pre → sup m = true →
      getSupportedMimeType sup = m)
  ∧ (Forall (λ x, sup x = false) possibleTypes →
      getSupportedMimeType sup = "").
Proof.
  unfold getSupportedMimeType. split.
  - intros pre m post -> Hpre Hm. now apply firstSupported_hit.
  - apply firstSupported_miss.
Qed.

Lemma getSupportedMimeType_first_supported_witness :
  getSupportedMimeType (λ m, String.eqb m "audio/webm" || String.eqb m "audio/aac")
  = "audio/webm"
  ∧ getSupportedMimeType (λ _, false) = "".
Proof.
  split.
  - apply (proj1 (getSupportedMimeType_first_supported _)
             ["audio/webm;codecs=opus"; "audio/mp4;codecs=mp4a.40.2"]
             "audio/webm" ["audio/mp4"; "audio/aac"]).
    + reflexivity.
    + repeat constructor.
    + reflexivity.
  - apply (proj2 (getSupportedMimeType_first_supported _)).
    repeat constructor.
Defined.

(** ** Playback *)

Lemma stopPlayback_emitted s : emitted stopPlayback s = stopEvents (world s).
Proof. by_cases s; read_log; reflexivity. Qed.

Lemma stopPlayback_view s :
  view (stopPlayback s)
  = setSelectedRecording None (setPlaybackTime 0 (setIsPlaying false (view s))).
Proof. by_cases s; reflexivity. Qed.

Lemma stopPlayback_player s :
  audioPlayerRef (world (stopPlayback s))
  = (λ a, mkAudio (src a) 0 true) <$> audioPlayerRef (world s).
Proof. by_cases s; reflexivity. Qed.

Lemma stopPlayback_timer s :
  playbackTimerRef (world (stopPlayback s)) = None
  ∧ ∀ id, playbackTimerRef (world s) = Some id →
          ∀ k, (id, k) ∉ intervals (world (stopPlayback s)).
Proof.
  by_cases s; (split; [reflexivity|]); try discriminate.
  all: intros id [= <-] k Hin; apply list_elem_of_filter in Hin as [Hne _];
    now apply Hne.
Qed.

(** Whatever address [b] the render resolves, [startPlayback] called
    while a source plays first fully stops the playing one: the element
    is paused and rewound, the elapsed time is reset to zero, the source
    is detached and the playback timer cleared. Only then is [b]
    attached to the element and started. The element has one [src]; it
    is set exactly once, after the stop. Which source [b] belongs to is
    not the caller's choice: it is resolved from the render in which
    the playing source plays. *)
Lemma startPlayback_stops_before_attach
    (c : View) (s : St) (a : Audio) (b : string) :
  isPlaying c = true →
  audioPlayerRef (world s) = Some a →
  urlToPlay c (platform (world s)) = Some b →
  JsString.truthy b = true →
  let stopped := stopPlayback s in
  let attach := audioSetSrc b >> audioSetCrossOrigin "anonymous"
                >> audioLoad >> audioPlay b in
  let started := startPlayback c s in
  playbackSlot (view stopped) = (NoSource, false, 0)
  ∧ selectedRecording (view stopped) = None
  ∧ audioPlayerRef (world stopped) = Some (mkAudio (src a) 0 true)
  ∧ playbackTimerRef (world stopped) = None
  ∧ started = attach stopped
  ∧ emitted (startPlayback c) s
    = (stopEvents (world s)
       ++ [EvSetSrc b; EvSetCrossOrigin "anonymous"; EvLoad; EvPlay])%list
  ∧ countEv isSetSrc (emitted (startPlayback c) s) = 1
  ∧ audioPlayerRef (world started) = Some (mkAudio b 0 false)
  ∧ view started = view stopped.
Proof.
  intros Hp Ha Hu Ht stopped attach started.
  assert (Hdecomp : startPlayback c s = attach (stopPlayback s)).
  { destruct s as [v w]. cbn in Ha, Hu. unfold startPlayback. cbn [world].
    now rewrite Ha, Hu, Ht, Hp. }
  assert (Hlog : emitted (startPlayback c) s
                 = (stopEvents (world s)
                    ++ [EvSetSrc b; EvSetCrossOrigin "anonymous";
                        EvLoad; EvPlay])%list).
  { unfold emitted at 1. rewrite Hdecomp. clear Hdecomp Hu Hp.
    unfold stopEvents, attach. open_st s. cbn in Ha. subst wAudio. run.
    destruct wPTimer; run; rewrite <- ?app_assoc, ?drop_app_length; reflexivity. }
  subst stopped started.
  split; [|split; [|split; [|split; [|split; [|split; [|split; [|split]]]]]]].
  - rewrite stopPlayback_view. reflexivity.
  - rewrite stopPlayback_view. reflexivity.
  - rewrite stopPlayback_player, Ha. reflexivity.
  - apply stopPlayback_timer.
  - exact Hdecomp.
  - exact Hlog.
  - rewrite Hlog. unfold stopEvents. rewrite Ha.
    destruct (playbackTimerRef (world s)); reflexivity.
  - rewrite Hdecomp. clear Hdecomp Hlog Hu Hp. unfold attach.
    open_st s. cbn in Ha. subst wAudio. run. destruct wPTimer; reflexivity.
  - rewrite Hdecomp. clear Hdecomp Hlog Hu Hp. unfold attach.
    open_st s. cbn in Ha. subst wAudio. run. destruct wPTimer; reflexivity.
Qed.

Lemma startPlayback_stops_before_attach_witness :
  playbackSlot (view (stopPlayback (mkSt playingEntryView playingWorld)))
  = (NoSource, false, 0)
  ∧ emitted (startPlayback playingEntryView) (mkSt playingEntryView playingWorld)
    = [EvPause; EvSeek 0; EvClearInterval 1%positive;
       EvSetSrc "http://localhost:5000/files/a.mp3";
       EvSetCrossOrigin "anonymous"; EvLoad; EvPlay].
Proof.
  destruct (startPlayback_stops_before_attach playingEntryView
              (mkSt playingEntryView playingWorld)
              (mkAudio "blob:1" 5 false)
              "http://localhost:5000/files/a.mp3"
              eq_refl eq_refl eq_refl eq_refl)
    as (H1 & _ & _ & _ & _ & H6 & _).
  split; [exact H1|exact H6].
Defined.

(** Which source is attached is resolved from the render the handler
    closed over. [playRecording] selects the entry and calls the
    [startPlayback] of the same render, whose selection is still the
    previous one: with the local recording playing, playing [entryA]
    stops the local recording and attaches its address again. *)
Lemma playRecording_resolves_previous_selection :
  emitted (playRecording playingLocalView entryA)
    (mkSt playingLocalView playingWorld)
  = [EvPause; EvSeek 0; EvClearInterval 1%positive; EvSetSrc "blob:1";
     EvSetCrossOrigin "anonymous"; EvLoad; EvPlay]
  ∧ selectedRecording
      (view (playRecording playingLocalView entryA
               (mkSt playingLocalView playingWorld))) = None.
Proof. split; reflexivity. Qed.

(** C1 fails in the code. From mount: the engine loads, a recording is
    transcoded and stored under "blob:1", the library is fetched, and
    the local recording is played. While it plays, the play control of
    the library entry [entryA] is clicked, whose address is
    "http://localhost:5000/files/a.mp3". The local recording is fully
    stopped first, as the claim says, and one source is attached. But
    the source attached and started is the local recording again, not
    the entry: [playRecording] selects the entry for the next render
    and calls the [startPlayback] of the current one, which resolves
    the address from the selection of the render in which the local
    recording plays. The entry's address is never attached, its
    selection is dropped by the stop, and once the element has started
    the local recording is the source playing. *)
Theorem play_other_source_attaches_playing_one :
  let s0 := localPlayingState in
  let t := ClickPlayEntry entryA in
  let s1 := next t s0 in
  reachable s0
  ∧ playbackSlot (view s0) = (LocalArtifact, true, 0)
  ∧ audioPlayerRef (world s0) = Some (mkAudio "blob:1" 0 false)
  ∧ getRecordingUrl (view s0) (platform (world s0)) entryA
    = Some "http://localhost:5000/files/a.mp3"
  ∧ emitted (next t) s0
    = [EvPause; EvSeek 0; EvClearInterval 1%positive; EvSetSrc "blob:1";
       EvSetCrossOrigin "anonymous"; EvLoad; EvPlay]
  ∧ (EvSetSrc "http://localhost:5000/files/a.mp3" ∉ log (world s1))
  ∧ audioPlayerRef (world s1) = Some (mkAudio "blob:1" 0 false)
  ∧ selectedRecording (view s1) = None
  ∧ playbackSlot (view (next PlayResolved s1)) = (LocalArtifact, true, 0)
  ∧ audioPlayerRef (world (next PlayResolved s1))
    = Some (mkAudio "blob:1" 0 false).
Proof.
  split; [|split; [|split; [|split; [|split; [|split]]]]].
  - repeat (apply reach_next; [|try exact I]); [apply reach_mount|].
    split; [|reflexivity]. intros H. now apply elem_of_nil in H.
  - reflexivity.
  - reflexivity.
  - reflexivity.
  - reflexivity.
  - vm_compute. intros H.
    repeat (apply elem_of_cons in H as [H|H]; [discriminate H|]).
    now apply elem_of_nil in H.
  - repeat split.
Qed.

Lemma isPlayingEntry_true c recordingId :
  isPlayingEntry c recordingId = true ↔
  ∃ r, selectedRecording c = Some r ∧ _id r = recordingId ∧ isPlaying c = true.
Proof.
  unfold isPlayingEntry. destruct (selectedRecording c) as [r|].
  - rewrite andb_true_iff, String.eqb_eq. split.
    + intros [? ?]. eauto.
    + intros (r' & [= <-] & ? & ?). auto.
  - split; [discriminate|]. intros (r & ? & _). discriminate.
Qed.

(** C8. Selecting a variant for the library entry that is playing stops
    its playback: the element is paused and rewound, the elapsed time
    reset, the source detached, and no source is attached or started in
    its place; the selection is stored. Selecting a variant for an entry
    that is not playing changes the stored selection and nothing else. *)
Theorem handleFormatChange_stops_playing_entry
    (c : View) (s : St) (recordingId newFormat : string) :
  let s' := handleFormatChange c recordingId newFormat s in
  ((∃ r, selectedRecording c = Some r ∧ _id r = recordingId
         ∧ isPlaying c = true) →
     playbackSlot (view s') = (NoSource, false, 0)
     ∧ selectedRecording (view s') = None
     ∧ recordingFormats (view s')
       = <[recordingId := newFormat]> (recordingFormats (view s))
     ∧ audioPlayerRef (world s')
       = (λ a, mkAudio (src a) 0 true) <$> audioPlayerRef (world s)
     ∧ playbackTimerRef (world s') = None
     ∧ emitted (handleFormatChange c recordingId newFormat) s
       = stopEvents (world s))
  ∧ (¬ (∃ r, selectedRecording c = Some r ∧ _id r = recordingId
             ∧ isPlaying c = true) →
     world s' = world s
     ∧ view s'
       = setRecordingFormats (λ prev, <[recordingId := newFormat]> prev) (view s)).
Proof.
  intros s'. subst s'.
  set (s1 := onView (setRecordingFormats
                       (λ prev, <[recordingId := newFormat]> prev)) s).
  assert (E : handleFormatChange c recordingId newFormat s
              = if isPlayingEntry c recordingId then stopPlayback s1 else s1).
  { subst s1. destruct s as [v w]. reflexivity. }
  split.
  - intros H. apply isPlayingEntry_true in H. unfold emitted. rewrite E, H.
    rewrite stopPlayback_view, stopPlayback_player.
    split; [reflexivity|]. split; [reflexivity|]. split; [reflexivity|].
    split; [reflexivity|]. split; [apply stopPlayback_timer|].
    exact (stopPlayback_emitted s1).
  - intros H. rewrite E. destruct (isPlayingEntry c recordingId) eqn:Ep.
    + exfalso. apply H. now apply isPlayingEntry_true.
    + subst s1. destruct s as [v w]. split; reflexivity.
Qed.

Lemma handleFormatChange_stops_playing_entry_witness :
  playbackSlot (view (handleFormatChange playingEntryView "a1" "mp4"
                        (mkSt playingEntryView playingWorld)))
  = (NoSource, false, 0)
  ∧ world (handleFormatChange playingLocalView "a1" "mp4"
             (mkSt playingLocalView playingWorld))
    = playingWorld.
Proof.
  split.
  - apply (proj1 (handleFormatChange_stops_playing_entry playingEntryView
                    (mkSt playingEntryView playingWorld) "a1" "mp4")).
    exists entryA. repeat split.
  - apply (proj2 (handleFormatChange_stops_playing_entry playingLocalView
                    (mkSt playingLocalView playingWorld) "a1" "mp4")).
    intros (r & Hr & _). discriminate.
Defined.

(** Stopping twice is stopping once, up to the repeated element calls. *)
Lemma stopPlayback_idempotent (s : St) :
  view (stopPlayback (stopPlayback s)) = view (stopPlayback s)
  ∧ audioPlayerRef (world (stopPlayback (stopPlayback s)))
    = audioPlayerRef (world (stopPlayback s))
  ∧ playbackTimerRef (world (stopPlayback (stopPlayback s)))
    = playbackTimerRef (world (stopPlayback s))
  ∧ intervals (world (stopPlayback (stopPlayback s)))
    = intervals (world (stopPlayback s)).
Proof. by_cases s; repeat split. Qed.

(** ** Starting a recording *)

(** C4, as it holds. While the engine is not loaded, [startRecording]
    is refused: nothing is requested from the platform (no device
    acquisition), the world is untouched, only the error message changes
    and the pipeline phase stays what it was, [Idle] included. On a
    platform that supports capture the message is the engine-not-ready
    one. Otherwise the support check, which runs first, reports the
    platform as unsupported: without [getUserMedia] that the browser
    does not support audio recording, with it but without
    [MediaRecorder] that [MediaRecorder] is not supported; neither is
    the engine-not-ready message. The Opus variant refuses in the same
    way. *)
Theorem startRecording_engine_not_ready (c : View) (s : St) :
  ffmpegLoaded (world s) = false →
  let s' := startRecording c s in
  world s' = world s
  ∧ emitted (startRecording c) s = []
  ∧ pipelineState (view s') (world s') = pipelineState (view s) (world s)
  ∧ (∃ e, view s' = setError e (view s))
  ∧ (hasGetUserMedia (platform (world s)) = true →
     hasMediaRecorder (platform (world s)) = true →
     view s' = setError engineNotReadyMessage (view s))
  ∧ (hasGetUserMedia (platform (world s)) = false →
     view s'
     = setError "Your browser does not support audio recording." (view s)
     ∧ error (view s') ≠ engineNotReadyMessage)
  ∧ (hasGetUserMedia (platform (world s)) = true →
     hasMediaRecorder (platform (world s)) = false →
     view s'
     = setError "MediaRecorder is not supported in your browser." (view s)
     ∧ error (view s') ≠ engineNotReadyMessage)
  ∧ Opus.startRecording c s = s'.
Proof.
  intros Hl s'. subst s'. open_st s. cbn in Hl. subst wLoaded.
  destruct wP as [pHost pGum pMr pSup pDef pCb].
  unfold emitted. run. destruct pGum, pMr; run;
    rewrite ?drop_all; repeat split; eauto; discriminate.
Qed.

Lemma startRecording_engine_not_ready_witness :
  world (startRecording initialView (mkSt initialView (mountedWorld desktop)))
  = mountedWorld desktop
  ∧ pipelineState
      (view (startRecording initialView
               (mkSt initialView (mountedWorld desktop))))
      (world (startRecording initialView
                (mkSt initialView (mountedWorld desktop)))) = Idle
  ∧ view (startRecording initialView (mkSt initialView (mountedWorld desktop)))
    = setError engineNotReadyMessage initialView
  ∧ view (startRecording initialView
            (mkSt initialView (mountedWorld noDevices)))
    = setError "Your browser does not support audio recording." initialView
  ∧ view (startRecording initialView
            (mkSt initialView (mountedWorld noRecorder)))
    = setError "MediaRecorder is not supported in your browser." initialView.
Proof.
  destruct (startRecording_engine_not_ready initialView
              (mkSt initialView (mountedWorld desktop)) eq_refl)
    as (H1 & _ & H3 & _ & H5 & _).
  destruct (startRecording_engine_not_ready initialView
              (mkSt initialView (mountedWorld noDevices)) eq_refl)
    as (_ & _ & _ & _ & _ & H6 & _).
  destruct (startRecording_engine_not_ready initialView
              (mkSt initialView (mountedWorld noRecorder)) eq_refl)
    as (_ & _ & _ & _ & _ & _ & H7 & _).
  split; [exact H1|]. split; [exact H3|]. split; [exact (H5 eq_refl eq_refl)|].
  split; [exact (proj1 (H6 eq_refl))|exact (proj1 (H7 eq_refl eq_refl))].
Defined.

(** C4, as stated, fails where [MediaRecorder] is missing: the call is
    refused with the support message, not the engine-not-ready one. *)
Lemma startRecording_unsupported_first :
  let s := mkSt initialView (mountedWorld noRecorder) in
  ffmpegLoaded (world s) = false
  ∧ pipelineState (view s) (world s) = Idle
  ∧ error (view (startRecording initialView s))
    = "MediaRecorder is not supported in your browser."
  ∧ view (startRecording initialView s)
    ≠ setError engineNotReadyMessage (view s).
Proof. repeat split. discriminate. Qed.

(** The Opus variant has the same two guards in the same order. *)
Lemma opus_guards_in_same_order (c : View) (s : St) :
  ffmpegLoaded (world s) = false →
  hasGetUserMedia (platform (world s)) = true →
  hasMediaRecorder (platform (world s)) = true →
  Opus.startRecording c s = onView (setError engineNotReadyMessage) s.
Proof.
  intros Hl Hg Hm. open_st s. destruct wP as [pHost pGum pMr pSup pDef pCb].
  cbn in Hl, Hg, Hm. subst. reflexivity.
Qed.

(** C3, as stated, fails: during a capture [startRecording] is not
    refused. It rewinds the player, requests the device again without
    reporting anything, and once the device is granted a second recorder
    and a second timer are started and the chunks captured so far are
    dropped. *)
Lemma startRecording_not_refused_while_recording :
  let s := mkSt recordingView recordingWorld in
  let s1 := startRecording recordingView s in
  let s2 := deviceGranted recordingView 5%positive s1 in
  pipelineState (view s) (world s) = Recording
  ∧ s1 ≠ s
  ∧ error (view s1) = ""
  ∧ emitted (startRecording recordingView) s = [EvPause; EvSeek 0; EvGetUserMedia]
  ∧ emitted (deviceGranted recordingView 5%positive) s1
    = [EvRecorderStart "audio/webm"; EvSetInterval 3%positive RecordingTick]
  ∧ chunksRef (world s2) = []
  ∧ intervals (world s2)
    = [(2%positive, RecordingTick); (3%positive, RecordingTick)].
Proof. repeat split. discriminate. Qed.

(** While the device is being acquired the record control is not gated:
    a second click requests the device a second time. *)
Lemma clickRecord_while_acquiring :
  let s := mkSt initialView (readyWorld desktop) in
  let s1 := next ClickRecord s in
  pipelineState (view s1) (world s1) = AcquiringDevice
  ∧ emitted (next ClickRecord) s1 = [EvPause; EvSeek 0; EvGetUserMedia]
  ∧ pendingDevice (world (next ClickRecord s1)) = 2.
Proof. repeat split. Qed.

Lemma stopRecording_keeps (c : View) (s : St) :
  countEv isGetUserMedia (emitted (stopRecording c) s) = 0
  ∧ pendingDevice (world (stopRecording c s)) = pendingDevice (world s)
  ∧ chunksRef (world (stopRecording c s)) = chunksRef (world s)
  ∧ error (view (stopRecording c s)) = error (view s).
Proof. unfold countEv. by_cases s; read_log; repeat split. Qed.

(** C3, as it holds. While recording or converting, the record control
    never starts a second capture: no device is requested, the chunks
    are kept, no message is reported. While converting the control is
    disabled and the state is unchanged; while recording it is either
    disabled or ends the recording. *)
Theorem clickRecord_never_starts_second_capture (c : View) (s : St) :
  isRecording c = true ∨ isConverting c = true →
  let s' := clickRecord c s in
  countEv isGetUserMedia (emitted (clickRecord c) s) = 0
  ∧ pendingDevice (world s') = pendingDevice (world s)
  ∧ chunksRef (world s') = chunksRef (world s)
  ∧ error (view s') = error (view s)
  ∧ (isConverting c = true → s' = s)
  ∧ (isConverting c = false → s' = s ∨ s' = stopRecording c s).
Proof.
  intros H s'. subst s'.
  assert (Hcases : clickRecord c s = s
                   ∨ (isConverting c = false ∧ clickRecord c s = stopRecording c s)).
  { destruct s as [v w]. unfold clickRecord, recordButtonDisabled.
    destruct (isConverting c) eqn:Hc.
    - rewrite orb_true_r. now left.
    - destruct H as [H|H]; [|discriminate]. rewrite H.
      destruct (JsString.truthy (error c) || false || negb (ffmpegLoaded _));
        auto. }
  unfold emitted. destruct Hcases as [-> | [Hc ->]].
  - unfold countEv. rewrite drop_all. repeat split; auto.
  - destruct (stopRecording_keeps c s) as (H1 & H2 & H3 & H4).
    repeat split; auto. rewrite Hc. discriminate.
Qed.

Lemma clickRecord_never_starts_second_capture_witness :
  countEv isGetUserMedia
    (emitted (clickRecord recordingView) (mkSt recordingView recordingWorld)) = 0
  ∧ chunksRef (world (clickRecord recordingView
                        (mkSt recordingView recordingWorld)))
    = [chunk1; chunk2; chunk3].
Proof.
  destruct (clickRecord_never_starts_second_capture recordingView
              (mkSt recordingView recordingWorld) (or_introl eq_refl))
    as (H1 & _ & H3 & _).
  split; [exact H1|exact H3].
Defined.

(** ** Conversion and the local artifact *)

Lemma keeps_effects c : keeps (effectCleanup c >> effectBody).
Proof. intros s. by_cases s; split; reflexivity. Qed.

Lemma keeps_commit c : keeps (commit c).
Proof.
  intros s. unfold commit. destruct (decide _); [split; reflexivity|].
  apply keeps_effects.
Qed.

Lemma keeps_playRejected m u : keeps (playRejected m u).
Proof. intros s. by_cases s; split; reflexivity. Qed.

Lemma keeps_rejectAll l : keeps (rejectAll l).
Proof.
  induction l as [|p l IH]; intros s; [split; reflexivity|].
  change (rejectAll (p :: l) s)
    with (rejectAll l (playRejected abortMessage (playUrl p) s)).
  destruct (IH (playRejected abortMessage (playUrl p) s)) as [-> ->].
  apply keeps_playRejected.
Qed.

Lemma keeps_settleAborted : keeps settleAborted.
Proof.
  intros s. unfold settleAborted.
  destruct (keeps_rejectAll (List.filter aborted (pendingPlays (world s)))
              (onWorld (withPendingPlays
                 (List.filter (λ p, negb (aborted p)) (pendingPlays (world s)))) s))
    as [-> ->].
  destruct s as [v w]. split; reflexivity.
Qed.

(** Every handler but the three that store an address keeps it. *)
Lemma keeps_handler (t : Task) (c : View) :
  match t with
  | Converted _ _ _ _ | ConversionFailed _ _ _ _ | UploadOk _ => True
  | _ => keeps (handler t c)
  end.
Proof.
  destruct t; try exact I; cbn [handler];
    intros s; by_cases s; split; reflexivity.
Qed.

(** A task stores the address it found, the empty address, or a fresh
    one, and forgets no issued address. *)
Lemma next_audioUrl (t : Task) (s : St) :
  enabled t s →
  (audioUrl (view (next t s)) = audioUrl (view s)
   ∨ audioUrl (view (next t s)) = ""
   ∨ audioUrl (view (next t s)) ∉ issued (world s))
  ∧ issued (world s) ⊆ issued (world (next t s)).
Proof.
  intros He. unfold next.
  destruct (keeps_commit (view s) (settleAborted (handler t (view s) s)))
    as [-> ->].
  destruct (keeps_settleAborted (handler t (view s) s)) as [-> ->].
  pose proof (keeps_handler t (view s)) as Hk.
  destruct t; try (destruct (Hk s) as [-> ->]; split; [now left|reflexivity]);
    clear Hk; cbn [handler].
  - destruct He as [Hfresh _]. by_cases s; (split; [now right; right|]);
      intros x Hx; apply elem_of_app; now left.
  - by_cases s; (split; [now right; left|reflexivity]).
  - by_cases s; split; auto; reflexivity.
Qed.

(** An issued address that is not the stored one is never stored again. *)
Lemma steps_never_restores (old : string) (s s' : St) :
  steps s s' →
  JsString.truthy old = true →
  old ∈ issued (world s) →
  audioUrl (view s) ≠ old →
  audioUrl (view s') ≠ old.
Proof.
  induction 1 as [s | s t s' He _ IH]; intros Ht Hin Hne; [assumption|].
  destruct (next_audioUrl t s He) as [Hurl Hsub].
  apply IH; [assumption|now apply Hsub|].
  destruct Hurl as [-> | [-> | Hfresh]]; [assumption| |].
  - intros <-. discriminate.
  - intros E. now rewrite E in Hfresh.
Qed.

Lemma effects_revoke_count (c : View) (s : St) (u : string) :
  countEv (isRevokeOf u) (emitted (effectCleanup c >> effectBody) s)
  = if JsString.truthy (audioUrl c) && String.eqb (audioUrl c) u then 1 else 0.
Proof.
  unfold countEv. open_st s.
  destruct (JsString.truthy (audioUrl c)) eqn:Ht,
    (String.eqb (audioUrl c) u) eqn:He; run; rewrite ?Ht; run;
    split_all; read_log; rewrite ?He; reflexivity.
Qed.

Lemma onstopConverted_view c ib data u s :
  view (onstopConverted c ib data u s)
  = setIsConverting false (setError "" (setAudioUrl u
      (setAudioBlob (Some (mkBlob data "audio/mp4")) (view s)))).
Proof. by_cases s; reflexivity. Qed.

Lemma onstopConverted_emitted c ib data u s :
  emitted (onstopConverted c ib data u) s
  = ([EvFfmpegWriteFile "input.file" ib; EvFfmpegExec ffmpegArgs;
      EvFfmpegReadFile "output.m4a"; EvCreateObjectURL u] ++
     if hasOnRecordingComplete (platform (world s))
     then [EvRecordingComplete (mkBlob data "audio/mp4") u] else [])%list.
Proof. by_cases s; read_log; reflexivity. Qed.

Lemma onstopConverted_issued c ib data u s :
  issued (world (onstopConverted c ib data u s)) = (issued (world s) ++ [u])%list.
Proof. by_cases s; reflexivity. Qed.

Lemma filter_settled (l : list PlayPromise) :
  Forall (λ p, aborted p = false) l →
  List.filter aborted l = [] ∧ List.filter (λ p, negb (aborted p)) l = l.
Proof.
  induction 1 as [|p l Hp _ [IH1 IH2]]; [now split|].
  cbn. rewrite Hp. cbn. now rewrite IH1, IH2.
Qed.

(** On a settled state there is nothing to reject. *)
Lemma settleAborted_settled s : settled s → settleAborted s = s.
Proof.
  intros H. destruct (filter_settled _ H) as [E1 E2].
  unfold settleAborted. rewrite E1, E2. now destruct s as [v []].
Qed.

Lemma onstopConverted_pendingPlays c ib data u s :
  pendingPlays (world (onstopConverted c ib data u s)) = pendingPlays (world s).
Proof. by_cases s; reflexivity. Qed.

(** The turn of the event loop for a successful transcode is the
    handler followed by the render. *)
Lemma next_Converted c0 ib data u s :
  settled s →
  next (Converted c0 ib data u) s
  = commit (view s) (onstopConverted c0 ib data u s).
Proof.
  intros H. unfold next. cbn [handler]. rewrite settleAborted_settled; [reflexivity|].
  unfold settled. now rewrite onstopConverted_pendingPlays.
Qed.

(** C2, as it holds. When a transcode succeeds while an earlier local
    address [old] is stored, the handler creates and stores the new
    address [u] without releasing [old]; the render that follows
    releases [old], exactly once; and [old] is never stored as the local
    address again, whatever runs afterwards. *)
Theorem transcode_success_releases_previous_after_create
    (c0 : View) (s0 : St) (ib : Blob) (data : list Byte.byte)
    (u old : string) :
  settled s0 →
  audioUrl (view s0) = old →
  JsString.truthy old = true →
  old ∈ issued (world s0) →
  freshUrl u (world s0) →
  let convert := onstopConverted c0 ib data u in
  let s1 := convert s0 in
  let s2 := next (Converted c0 ib data u) s0 in
  s2 = commit (view s0) s1
  ∧ countEv (isCreateOf u) (emitted convert s0) = 1
  ∧ countEv (isRevokeOf old) (emitted convert s0) = 0
  ∧ audioUrl (view s1) = u
  ∧ countEv (isRevokeOf old) (emitted (commit (view s0)) s1) = 1
  ∧ audioUrl (view s2) = u
  ∧ u ≠ old
  ∧ ∀ s', steps s2 s' → audioUrl (view s') ≠ old.
Proof.
  intros Hs Hold Ht Hin [Hfresh Hu] convert s1 s2.
  assert (Hnext : s2 = commit (view s0) s1) by now apply next_Converted.
  assert (Hne : u ≠ old) by (intros ->; contradiction).
  assert (H1 : audioUrl (view s1) = u).
  { subst s1 convert. now rewrite onstopConverted_view. }
  assert (H2 : audioUrl (view s2) = u).
  { rewrite Hnext. now destruct (keeps_commit (view s0) s1) as [-> _]. }
  split; [assumption|].
  split; [|split; [|split; [|split; [|split; [|split]]]]]; try assumption.
  - subst convert. rewrite onstopConverted_emitted. unfold countEv. cbn.
    rewrite String.eqb_refl. destruct (hasOnRecordingComplete _); reflexivity.
  - subst convert. rewrite onstopConverted_emitted. unfold countEv. cbn.
    destruct (hasOnRecordingComplete _); reflexivity.
  - unfold commit, emitted.
    destruct (decide (audioUrl (view s1) = audioUrl (view s0))) as [E|E].
    + exfalso. apply Hne. congruence.
    + fold (emitted (effectCleanup (view s0) >> effectBody) s1).
      rewrite effects_revoke_count, Hold, Ht, String.eqb_refl. reflexivity.
  - intros s' Hsteps. apply (steps_never_restores old s2 s' Hsteps Ht).
    + rewrite Hnext. destruct (keeps_commit (view s0) s1) as [_ ->].
      subst s1 convert. rewrite onstopConverted_issued. apply elem_of_app.
      now left.
    + rewrite H2. exact Hne.
Qed.

Lemma transcode_success_releases_previous_after_create_witness :
  countEv (isRevokeOf "blob:1")
    (emitted (onstopConverted stoppedView rawCapture [Byte.x2a] "blob:2")
       (mkSt stoppedView stoppedWorld)) = 0
  ∧ countEv (isRevokeOf "blob:1")
      (emitted (commit stoppedView)
         (onstopConverted stoppedView rawCapture [Byte.x2a] "blob:2"
            (mkSt stoppedView stoppedWorld))) = 1.
Proof.
  assert (Hs : settled (mkSt stoppedView stoppedWorld)) by constructor.
  assert (Hin : "blob:1" ∈ issued stoppedWorld) by (apply list_elem_of_here).
  assert (Hfresh : freshUrl "blob:2" stoppedWorld).
  { split; [|reflexivity]. intros H. apply list_elem_of_singleton in H.
    discriminate. }
  destruct (transcode_success_releases_previous_after_create
              stoppedView (mkSt stoppedView stoppedWorld) rawCapture [Byte.x2a]
              "blob:2" "blob:1" Hs eq_refl eq_refl Hin Hfresh)
    as (_ & _ & H2 & _ & H4 & _).
  split; [exact H2|exact H4].
Defined.

(** C2, as stated, fails: on a successful transcode the previous address
    "blob:1" is released after the new address "blob:2" is created, not
    before. *)
Lemma previous_address_released_after_creation :
  let s0 := mkSt stoppedView stoppedWorld in
  let t := Converted stoppedView rawCapture [Byte.x2a] "blob:2" in
  enabled t s0
  ∧ emitted (next t) s0
    = [EvFfmpegWriteFile "input.file" rawCapture; EvFfmpegExec ffmpegArgs;
       EvFfmpegReadFile "output.m4a"; EvCreateObjectURL "blob:2";
       EvStopTracks 1%positive; EvRevokeObjectURL "blob:1"; EvFetchRecordings]
  ∧ releasedBeforeCreated "blob:1" "blob:2" (emitted (next t) s0) = false.
Proof.
  repeat split.
  intros H. apply list_elem_of_singleton in H. discriminate.
Qed.

(** A render changes no React state but the message, and leaves the
    recorder, its chunks and the pending device requests alone. *)
Lemma commit_frame (c : View) (s : St) :
  (∃ e, view (commit c s) = setError e (view s))
  ∧ pendingDevice (world (commit c s)) = pendingDevice (world s)
  ∧ mediaRecorderRef (world (commit c s)) = mediaRecorderRef (world s)
  ∧ chunksRef (world (commit c s)) = chunksRef (world s).
Proof.
  unfold commit. destruct (decide _) as [_|_].
  - destruct s as [v w]. repeat split. now exists (error v).
  - by_cases s; repeat split; eauto.
    all: now exists vErr.
Qed.

Lemma stopRecording_recording (c : View) (s : St) (mr : MediaRecorder) :
  isRecording c = true →
  mediaRecorderRef (world s) = Some mr →
  view (stopRecording c s) = setIsRecording false (view s)
  ∧ pendingDevice (world (stopRecording c s)) = pendingDevice (world s)
  ∧ mediaRecorderRef (world (stopRecording c s))
    = Some (mkMediaRecorder (mimeType mr) (recorderStream mr) false)
  ∧ chunksRef (world (stopRecording c s)) = chunksRef (world s).
Proof.
  intros Hr Hm. open_st s. cbn in Hm. subst wMr. run. rewrite Hr.
  split_all; repeat split.
Qed.

Lemma onstopBegin_view (c : View) (s : St) (mr : MediaRecorder) :
  mediaRecorderRef (world s) = Some mr →
  view (onstopBegin c s)
  = setError "Converting audio to MP4 (AAC)..."
      (setIsConverting true
         (setAudioBlob (Some (initialBlobOf (world s) mr)) (view s)))
  ∧ pendingDevice (world (onstopBegin c s)) = pendingDevice (world s).
Proof.
  intros Hm. open_st s. cbn in Hm. subst wMr. run. split_all; repeat split.
Qed.

Lemma onstopConverted_pendingDevice c ib data u s :
  pendingDevice (world (onstopConverted c ib data u s)) = pendingDevice (world s).
Proof. by_cases s; reflexivity. Qed.

(** C6. A capture that is ended with [stopRecording] and whose transcode
    to AAC at 128k succeeds leaves the component ready: neither
    recording nor converting, an address stored, and the one stored
    blob of type audio/mp4 holding the engine's output. *)
Theorem capture_transcode_reaches_ready
    (c c0 : View) (w : World) (mr : MediaRecorder)
    (data : list Byte.byte) (u : string) :
  isRecording c = true →
  mediaRecorderRef w = Some mr →
  pendingDevice w = 0 →
  JsString.truthy u = true →
  let s1 := commit c (stopRecording c (mkSt c w)) in
  let s2 := commit (view s1) (onstopBegin c0 s1) in
  let convert := onstopConverted c0 (initialBlobOf w mr) data u in
  let s3 := commit (view s2) (convert s2) in
  pipelineState (view s2) (world s2) = Converting
  ∧ EvFfmpegExec ["-i"; "input.file"; "-c:a"; "aac"; "-b:a"; "128k";
                  "-movflags"; "+faststart"; "output.m4a"]
    ∈ emitted convert s2
  ∧ pipelineState (view s3) (world s3) = Ready
  ∧ audioBlob (view s3) = Some (mkBlob data "audio/mp4")
  ∧ blob_type <$> audioBlob (view s3) = Some "audio/mp4"
  ∧ audioUrl (view s3) = u.
Proof.
  intros Hrec Hmr Hpd Hu s1 s2 convert s3.
  assert (F1 : (∃ e, view s1 = setError e (setIsRecording false c))
               ∧ pendingDevice (world s1) = 0
               ∧ ∃ mr', mediaRecorderRef (world s1) = Some mr').
  { subst s1.
    destruct (stopRecording_recording c (mkSt c w) mr Hrec Hmr)
      as (Ev & Hp & Hm & _).
    destruct (commit_frame c (stopRecording c (mkSt c w)))
      as ([e Ev'] & -> & -> & _).
    rewrite Ev', Ev, Hp, Hm. eauto. }
  clearbody s1. destruct F1 as ([e1 Ev1] & Hp1 & mr' & Hm1).
  assert (F2 : isRecording (view s2) = false ∧ isConverting (view s2) = true
               ∧ pendingDevice (world s2) = 0).
  { subst s2. destruct (onstopBegin_view c0 s1 _ Hm1) as (Ev & Hp).
    destruct (commit_frame (view s1) (onstopBegin c0 s1))
      as ([e Ev'] & -> & _).
    rewrite Ev', Ev, Ev1, Hp. auto. }
  clearbody s2. destruct F2 as (Hr2 & Hc2 & Hp2).
  assert (F3 : (∃ e, view s3 = setError e (view (convert s2)))
               ∧ pendingDevice (world s3) = 0).
  { subst s3 convert.
    destruct (commit_frame (view s2)
                (onstopConverted c0 (initialBlobOf w mr) data u s2))
      as (Ev' & -> & _).
    now rewrite onstopConverted_pendingDevice. }
  clearbody s3. destruct F3 as ([e3 Ev3] & Hp3).
  unfold convert in Ev3. rewrite onstopConverted_view in Ev3.
  split; [|split; [|split; [|split; [|split]]]].
  - unfold pipelineState. now rewrite Hc2.
  - subst convert. rewrite onstopConverted_emitted.
    apply elem_of_app. left. apply list_elem_of_further, list_elem_of_here.
  - unfold pipelineState. rewrite Hp3, Ev3. open_view. rewrite Hr2, Hu.
    destruct (decide (0 < 0)); [lia|reflexivity].
  - now rewrite Ev3.
  - now rewrite Ev3.
  - now rewrite Ev3.
Qed.

Lemma capture_transcode_reaches_ready_witness :
  isRecording recordingView = true
  ∧ pipelineState (view (recordedAndConverted [Byte.x2a] "blob:2"))
      (world (recordedAndConverted [Byte.x2a] "blob:2")) = Ready
  ∧ audioBlob (view (recordedAndConverted [Byte.x2a] "blob:2"))
    = Some (mkBlob [Byte.x2a] "audio/mp4").
Proof.
  destruct (capture_transcode_reaches_ready recordingView recordingView
              recordingWorld (mkMediaRecorder "audio/webm" 1%positive true)
              [Byte.x2a] "blob:2" eq_refl eq_refl eq_refl eq_refl)
    as (_ & _ & H3 & H4 & _).
  split; [reflexivity|]. split; [exact H3|exact H4].
Defined.

(** On a failed conversion the main variant discards the local
    artifact: no blob, no address, no local playback offered, the
    address its closure holds released. *)
Lemma onstopFailed_discards_artifact
    (c0 : View) (ib : Blob) (stage : ConvStage) (message : string) (s : St) :
  let s' := commit (view s) (onstopFailed c0 ib stage message s) in
  exposedArtifact (view s') = (None, "")
  ∧ localPlaybackOffered (view s') = false
  ∧ isConverting (view s') = false
  ∧ (JsString.truthy (audioUrl c0) = true →
     countEv (isRevokeOf (audioUrl c0))
       (emitted (onstopFailed c0 ib stage message) s) = 1).
Proof.
  intros s'. subst s'.
  assert (Ev : view (onstopFailed c0 ib stage message s)
               = setIsConverting false (setAudioBlob None (setAudioUrl ""
                   (setError ("Failed to convert audio: " +:+ message) (view s))))).
  { by_cases s; reflexivity. }
  destruct (commit_frame (view s) (onstopFailed c0 ib stage message s))
    as ([e ->] & _).
  rewrite Ev. repeat split.
  intros Ht. unfold countEv. open_st s. run. rewrite Ht.
  destruct stage; read_log; rewrite String.eqb_refl; reflexivity.
Qed.

(** In the Opus variant [onstop] first stores the raw capture as the
    blob, as the main variant does. *)
Lemma opus_onstopBegin_stores_capture (c : View) (s : St) (mr : MediaRecorder) :
  mediaRecorderRef (world s) = Some mr →
  exposedArtifact (view (Opus.onstopBegin c s))
  = (Some (initialBlobOf (world s) mr), audioUrl (view s)).
Proof.
  intros Hm. open_st s. cbn in Hm. subst wMr. run. split_all; reflexivity.
Qed.

(** Both effects of the Opus variant release the previous address when
    it changes: it is released twice. *)
Lemma opus_commit_releases_twice (c : View) (s : St) :
  audioUrl (view s) ≠ audioUrl c →
  JsString.truthy (audioUrl c) = true →
  countEv (isRevokeOf (audioUrl c)) (emitted (Opus.commit c) s) = 2.
Proof.
  intros Hne Ht. unfold countEv. open_st s. cbn in Hne. run.
  destruct (decide (vUrl = audioUrl c)) as [E|_]; [contradiction|].
  run. rewrite Ht. split_all; try discriminate; read_log;
    rewrite ?String.eqb_refl; reflexivity.
Qed.

(** The Opus variant's [catch] and [finally] touch the message and
    the converting flag only: blob and address stay as they were, and
    nothing is released. *)
Lemma opus_onstopFailed_keeps
    (c0 : View) (ib : Blob) (stage : ConvStage) (message : string) (s : St) :
  exposedArtifact (view (Opus.onstopFailed c0 ib stage message s))
  = exposedArtifact (view s)
  ∧ ∀ u, countEv (isRevokeOf u)
           (emitted (Opus.onstopFailed c0 ib stage message) s) = 0.
Proof.
  unfold countEv. by_cases s; (split; [reflexivity|]); intros u; read_log;
    reflexivity.
Qed.

(** C5 fails in the Opus variant. With an earlier artifact stored
    ("blob:1", audio/opus), a capture is ended and the engine fails:
    the variant reports the error and nothing else. The earlier address
    stays stored, unreleased, and is still offered for playback, now
    next to the raw capture as the stored blob. *)
Theorem opus_conversion_failure_keeps_artifact :
  let s0 := mkSt opusStoppedView stoppedWorld in
  let s1 := Opus.commit (view s0) (Opus.onstopBegin opusStoppedView s0) in
  let s2 := Opus.commit (view s1)
              (Opus.onstopFailed opusStoppedView rawCapture AtExec "exit 1" s1) in
  exposedArtifact (view s0) = (Some (mkBlob [Byte.x00] "audio/opus"), "blob:1")
  ∧ exposedArtifact (view s2) = (Some rawCapture, "blob:1")
  ∧ localPlaybackOffered (view s2) = true
  ∧ countEv (isRevokeOf "blob:1") (log (world s2)) = 0
  ∧ error (view s2) = "Failed to convert audio to OPUS: exit 1"
  ∧ isConverting (view s2) = false.
Proof. repeat split. Qed.

(** ** Reachable states *)

Lemma filter_live_abort l :
  List.filter (λ p, negb (aborted p)) (map abort l) = [].
Proof. induction l as [|p l IH]; [reflexivity|exact IH]. Qed.

(** Membership in the interval table after the updates the handlers
    make: filtered, extended by one timer. *)
Ltac ticks Hin :=
  repeat first
    [ apply list_elem_of_filter in Hin; destruct Hin as [? Hin]
    | apply elem_of_app in Hin; destruct Hin as [Hin|Hin]
    | apply list_elem_of_singleton in Hin; inversion Hin; subst; clear Hin ].

Ltac inv_goal H2 Hlive :=
  cbn in *;
  rewrite ?List.filter_app, ?Hlive in *; cbn in *;
  split;
  [ try (intros; congruence); try (intros; auto; fail)
  | split;
    [ let id := fresh "id" in let Hin := fresh "Hin" in
      intros id Hin; ticks Hin; cbn in *;
      try (apply H2 in Hin; destruct Hin as [Hr Hp]);
      try (split; congruence); try congruence; try (exfalso; congruence)
    | split;
      [ try (intros; congruence); try (intros; auto; fail)
      | try lia ] ] ].

(** While a source plays, the elapsed time follows the element. *)
Example elapsed_time_follows_element :
  playbackTime
    (view (next TickPlayback
             (next (TimeUpdate 7) (mkSt playingLocalView playingWorld)))) = 7.
Proof. reflexivity. Qed.

Lemma playbackInv_mount p : playbackInv (mount p).
Proof.
  unfold playbackInv, mount. cbn. split; [reflexivity|].
  split; [|split; [congruence|lia]].
  intros id H. now apply elem_of_nil in H.
Qed.

Lemma settled_cons p rest :
  Forall (λ p, aborted p = false) (p :: rest) →
  (length (List.filter (λ p, negb (aborted p)) (p :: rest)) <= 1)%nat →
  rest = [].
Proof.
  intros Hs Hl. inversion Hs as [|? ? Hp Hrest]; subst. cbn in Hl.
  rewrite Hp in Hl. cbn in Hl. destruct rest as [|q rest]; [reflexivity|].
  inversion Hrest as [|? ? Hq _]; subst. cbn in Hl. rewrite Hq in Hl.
  cbn in Hl. lia.
Qed.

(** Every handler keeps the playback invariant of a settled state. *)
Lemma handler_playbackInv t s :
  playbackInv s → settled s → enabled t s → playbackInv (handler t (view s) s).
Proof.
  intros (H1 & H2 & H3 & H4) H5 He. open_st s. cbn in H1, H2, H3, H4, H5.
  unfold settled in H5. cbn in H5.
  destruct t; cbn [handler]; run; split_all; unfold playbackInv.
  all: try match goal with
       | H : Forall _ (?p :: ?rest) |- _ =>
           pose proof (settled_cons p rest H H4); subst rest
       end.
  all: inv_goal H2 filter_live_abort.
  - destruct He as [id Hin]. apply H2 in Hin as [_ ->]. discriminate.
Qed.

(** So does the rejection of a [play()] promise while nothing plays. *)
Lemma playRejected_playbackInv m u s :
  playbackInv s → isPlaying (view s) = false →
  playbackInv (playRejected m u s)
  ∧ isPlaying (view (playRejected m u s)) = false
  ∧ pendingPlays (world (playRejected m u s)) = pendingPlays (world s).
Proof.
  intros (H1 & H2 & H3 & H4) Hp. open_st s. cbn in H1, H2, H3, H4, Hp. subst vPlay.
  run; split_all; (split; [|split; reflexivity]); unfold playbackInv.
  all: inv_goal H2 filter_live_abort.
Qed.

Lemma rejectAll_playbackInv l s :
  playbackInv s → (l ≠ [] → isPlaying (view s) = false) →
  playbackInv (rejectAll l s)
  ∧ pendingPlays (world (rejectAll l s)) = pendingPlays (world s).
Proof.
  revert s. induction l as [|p l IH]; intros s Hinv Hp; [now split|].
  change (rejectAll (p :: l) s)
    with (rejectAll l (playRejected abortMessage (playUrl p) s)).
  destruct (playRejected_playbackInv abortMessage (playUrl p) s Hinv)
    as (Hinv' & Hp' & Hpp); [now apply Hp|].
  destruct (IH _ Hinv' (λ _, Hp')) as [Hinv'' Hpp'].
  split; [assumption|]. now rewrite Hpp'.
Qed.

Lemma settleAborted_playbackInv s :
  playbackInv s → playbackInv (settleAborted s) ∧ settled (settleAborted s).
Proof.
  intros (H1 & H2 & H3 & H4). unfold settleAborted.
  set (s' := onWorld (withPendingPlays
                (List.filter (λ p, negb (aborted p)) (pendingPlays (world s)))) s).
  assert (Hinv' : playbackInv s').
  { subst s'. destruct s as [v w]. destruct w. unfold playbackInv. cbn in *.
    split; [assumption|]. split; [assumption|]. split.
    - intros Hne. apply H3. intros E. rewrite E in Hne. now apply Hne.
    - etransitivity; [apply List.filter_length_le|assumption]. }
  destruct (rejectAll_playbackInv
              (List.filter aborted (pendingPlays (world s))) s' Hinv')
    as [Hinv Hpp].
  { intros Hne. subst s'. destruct s as [v w]. cbn in *. apply H3.
    intros E. rewrite E in Hne. now apply Hne. }
  split; [assumption|]. unfold settled. rewrite Hpp. subst s'.
  destruct s as [v w]. destruct w. cbn. apply List.Forall_forall.
  intros p Hin. apply List.filter_In in Hin as [_ Hl].
  now destruct (aborted p).
Qed.

Lemma commit_playbackInv c s :
  playbackInv s → settled s → playbackInv (commit c s) ∧ settled (commit c s).
Proof.
  intros (H1 & H2 & H3 & H4) H5. open_st s. unfold settled in *.
  cbn in H1, H2, H3, H4, H5.
  run; split_all; (split; [|assumption]); unfold playbackInv.
  all: inv_goal H2 filter_live_abort.
Qed.

Lemma next_playbackInv t s :
  playbackInv s → settled s → enabled t s →
  playbackInv (next t s) ∧ settled (next t s).
Proof.
  intros Hinv Hs He. unfold next.
  destruct (settleAborted_playbackInv _ (handler_playbackInv t s Hinv Hs He))
    as [Hinv' Hs'].
  now apply commit_playbackInv.
Qed.

Lemma reachable_playbackInv s :
  reachable s → playbackInv s ∧ settled s.
Proof.
  induction 1 as [p | s t _ [IH1 IH2] He].
  - split; [apply playbackInv_mount|]. constructor.
  - now apply next_playbackInv.
Qed.

(** In a reachable state that is not playing the elapsed time is zero. *)
Lemma reachable_stopped_elapsed_zero s :
  reachable s → isPlaying (view s) = false → playbackTime (view s) = 0.
Proof. intros Hr. now destruct (reachable_playbackInv s Hr) as [[H1 _] _]. Qed.

(** A stopped slot with its elapsed time at zero is left as it is. *)
Lemma stopPlayback_stopped_slot (s : St) :
  isPlaying (view s) = false →
  playbackTime (view s) = 0 →
  playbackSlot (view (stopPlayback s)) = playbackSlot (view s)
  ∧ error (view (stopPlayback s)) = error (view s)
  ∧ (selectedRecording (view s) = None → view (stopPlayback s) = view s).
Proof.
  intros Hp Ht. rewrite stopPlayback_view.
  open_st s. cbn in *. subst. repeat split. intros ->. reflexivity.
Qed.

(** C9. In every reachable state in which no source is playing,
    [stopPlayback] is a no-op on the playback slot: source, playing
    flag and elapsed time are unchanged, and no error is reported. When
    no entry is selected either, the whole React state is unchanged. *)
Theorem stopPlayback_idle_noop (s : St) :
  reachable s →
  isPlaying (view s) = false →
  playbackSlot (view (stopPlayback s)) = playbackSlot (view s)
  ∧ error (view (stopPlayback s)) = error (view s)
  ∧ (selectedRecording (view s) = None → view (stopPlayback s) = view s).
Proof.
  intros Hr Hp. apply stopPlayback_stopped_slot; [assumption|].
  now apply reachable_stopped_elapsed_zero.
Qed.

Lemma stopPlayback_idle_noop_witness :
  playbackSlot (view (stopPlayback (next (Fetched [entryA]) (mount desktop))))
  = playbackSlot (view (next (Fetched [entryA]) (mount desktop)))
  ∧ view (stopPlayback (next (Fetched [entryA]) (mount desktop)))
    = view (next (Fetched [entryA]) (mount desktop)).
Proof.
  assert (Hr : reachable (next (Fetched [entryA]) (mount desktop))).
  { apply reach_next; [apply reach_mount|exact I]. }
  destruct (stopPlayback_idle_noop _ Hr eq_refl) as (H1 & _ & H3).
  split; [exact H1|exact (H3 eq_refl)].
Defined.

(** * Further properties of the handlers *)

#[local] Arguments String.append !_ _ / : simpl nomatch.
Arguments clickSubmit c now !s /.

(** ** The time display *)

Lemma toString_inj a b : toString a = toString b → a = b.
Proof.
  unfold toString. intros H. apply Unsigned.to_uint_inj.
  apply (f_equal NilEmpty.uint_of_string) in H.
  rewrite !NilEmpty.usu in H. now injection H.
Qed.

Lemma to_uint_normal n : Decimal.unorm (N.to_uint n) = N.to_uint n.
Proof. now rewrite <- Unsigned.to_of, Unsigned.of_to. Qed.

(** A decimal numeral has a leading zero only when it is zero. *)
Lemma toString_leading_zero n r : toString n = String "0" r → r = "".
Proof.
  unfold toString. pose proof (to_uint_normal n) as Hn.
  destruct (N.to_uint n) as [|d|d|d|d|d|d|d|d|d|d]; cbn; try discriminate.
  intros [= <-]. rewrite unorm_D0 in Hn.
  destruct (Decimal.nzhead d) eqn:E.
  1: { apply unorm_0 in E. rewrite E in Hn. now injection Hn as <-. }
  all: rewrite unorm_nzhead in Hn by (rewrite E; discriminate);
    now apply nzhead_nonzero in Hn.
Qed.

Lemma toString_nonempty n : toString n ≠ "".
Proof.
  unfold toString. pose proof (to_uint_normal n) as Hn.
  destruct (N.to_uint n); cbn; discriminate.
Qed.

Lemma length_append (s1 s2 : string) :
  String.length (s1 +:+ s2) = (String.length s1 + String.length s2)%nat.
Proof. induction s1 as [|a s1 IH]; [reflexivity|]. cbn. now rewrite IH. Qed.

(** What [padStart(2, "0")] does, by the length of the string. *)
Lemma pad2_cases s :
  (s = "" ∧ padStart 2 "0" s = "00")
  ∨ (∃ ch, s = String ch "" ∧ padStart 2 "0" s = String "0" s)
  ∨ ((2 <= String.length s)%nat ∧ padStart 2 "0" s = s).
Proof.
  destruct s as [|a [|b s]].
  - now left.
  - right; left. now exists a.
  - right; right. split; [cbn; lia|reflexivity].
Qed.

Lemma pad2_toString_inj a b :
  padStart 2 "0" (toString a) = padStart 2 "0" (toString b) → a = b.
Proof.
  intros H. apply toString_inj.
  destruct (pad2_cases (toString a)) as [[Ea _]|[(ca & Ea & Pa)|[La Pa]]];
    [now apply toString_nonempty in Ea| |];
  (destruct (pad2_cases (toString b)) as [[Eb _]|[(cb & Eb & Pb)|[Lb Pb]]];
    [now apply toString_nonempty in Eb| |]);
  rewrite Pa, Pb in H.
  - now injection H.
  - symmetry in H. apply toString_leading_zero in H. rewrite Ea in H.
    discriminate.
  - apply toString_leading_zero in H. rewrite Eb in H. discriminate.
  - exact H.
Qed.

Lemma pad2_length_ge n : (2 <= String.length (padStart 2 "0" (toString n)))%nat.
Proof.
  destruct (pad2_cases (toString n)) as [[E _]|[(ch & E & ->)|[L ->]]].
  - now apply toString_nonempty in E.
  - rewrite E. cbn. lia.
  - exact L.
Qed.

(** Below one hundred the padded numeral is the two-digit rendering. *)
Lemma pad2_small (n : nat) :
  (n < 100)%nat → padStart 2 "0" (toString (N.of_nat n)) = twoDigits n.
Proof. intros H. do 100 (destruct n as [|n]; [reflexivity|]). lia. Qed.

(** A numeral of at most two digits is below one hundred. *)
Lemma toString_short n :
  (String.length (toString n) <= 2)%nat → (n < 100)%N.
Proof.
  rewrite <- (Unsigned.of_to n) at 2. unfold toString.
  destruct (N.to_uint n) as [|d|d|d|d|d|d|d|d|d|d]; cbn; try lia.
  all: destruct d as [|d|d|d|d|d|d|d|d|d|d]; cbn; try lia.
  all: destruct d as [|d|d|d|d|d|d|d|d|d|d]; cbn; lia.
Qed.

(** The seconds are below sixty, so their padded numeral is the
    two-digit rendering. *)
Lemma formatTime_seconds (seconds : nat) :
  formatTime seconds
  = padStart 2 "0" (toString (N.of_nat (seconds / 60))) +:+ ":"
    +:+ twoDigits (seconds mod 60).
Proof.
  unfold formatTime. cbv zeta. rewrite (pad2_small (seconds mod 60)).
  - reflexivity.
  - pose proof (Nat.mod_upper_bound seconds 60). lia.
Qed.

(** X1. For a whole number of seconds that is a safe integer,
    [formatTime] shows minutes, a colon and seconds: the seconds
    always as two digits, the minutes as at least two. Below one hundred
    minutes the display is exactly [MM:SS], five characters; from one
    hundred minutes on it is wider. *)
Theorem formatTime_minutes_seconds (seconds : nat) :
  isSafeInteger (N.of_nat seconds) = true →
  formatTime seconds
  = padStart 2 "0" (toString (N.of_nat (seconds / 60))) +:+ ":"
    +:+ twoDigits (seconds mod 60)
  ∧ (5 <= String.length (formatTime seconds))%nat
  ∧ ((seconds < 100 * 60)%nat →
     formatTime seconds
     = twoDigits (seconds / 60) +:+ ":" +:+ twoDigits (seconds mod 60)
     ∧ String.length (formatTime seconds) = 5%nat)
  ∧ ((100 * 60 <= seconds)%nat → (5 < String.length (formatTime seconds))%nat).
Proof.
  intros _. pose proof (formatTime_seconds seconds) as E.
  split; [exact E|]. split; [|split].
  - rewrite E, !length_append.
    pose proof (pad2_length_ge (N.of_nat (seconds / 60))).
    unfold twoDigits. cbn [String.length]. lia.
  - intros Hlt. rewrite E, pad2_small.
    + split; reflexivity.
    + apply Nat.Div0.div_lt_upper_bound. lia.
  - intros Hge. rewrite E, !length_append.
    unfold twoDigits. cbn [String.length].
    destruct (pad2_cases (toString (N.of_nat (seconds / 60))))
      as [[E0 _]|[(ch & E1 & _)|[L ->]]].
    + now apply toString_nonempty in E0.
    + assert (Hsmall : (N.of_nat (seconds / 60) < 100)%N).
      { apply toString_short. rewrite E1. cbn. lia. }
      assert (100 <= seconds / 60)%nat by (apply Nat.div_le_lower_bound; lia).
      lia.
    + destruct (decide (String.length
                          (toString (N.of_nat (seconds / 60))) <= 2)%nat)
        as [Hle|Hgt]; [|lia].
      apply toString_short in Hle.
      assert (100 <= seconds / 60)%nat by (apply Nat.div_le_lower_bound; lia).
      lia.
Qed.

Lemma formatTime_minutes_seconds_witness :
  formatTime 754 = "12:34" ∧ String.length (formatTime 754) = 5%nat
  ∧ (5 < String.length (formatTime (100 * 60)))%nat.
Proof.
  destruct (formatTime_minutes_seconds 754 eq_refl) as (_ & _ & H & _).
  destruct H as [H1 H2]; [vm_compute; lia|].
  destruct (formatTime_minutes_seconds (100 * 60) eq_refl) as (_ & _ & _ & H').
  split; [exact H1|]. split; [exact H2|]. apply H'. vm_compute. lia.
Defined.

(** X2. Different durations, each a safe integer of seconds, are
    displayed differently. *)
Theorem formatTime_distinct (a b : nat) :
  isSafeInteger (N.of_nat a) = true →
  isSafeInteger (N.of_nat b) = true →
  a ≠ b → formatTime a ≠ formatTime b.
Proof.
  intros _ _ Hne H. apply Hne.
  pose proof (formatTime_seconds a) as Ea.
  pose proof (formatTime_seconds b) as Eb.
  assert (Hl : String.length (formatTime a) = String.length (formatTime b))
    by now rewrite H.
  rewrite Ea, Eb in Hl. rewrite !length_append in Hl.
  unfold twoDigits in Hl. cbn [String.length] in Hl.
  rewrite Ea, Eb in H.
  apply JsStringFacts.app_same_length_inv in H as [Hm Hs]; [|lia].
  apply pad2_toString_inj in Hm. apply Nat2N.inj in Hm.
  assert (Hsec : (a mod 60 = b mod 60)%nat).
  { pose proof (Nat.mod_upper_bound a 60). pose proof (Nat.mod_upper_bound b 60).
    rewrite <- !pad2_small in Hs by lia.
    injection Hs as Hs. apply pad2_toString_inj in Hs. now apply Nat2N.inj in Hs. }
  rewrite (Nat.div_mod_eq a 60), (Nat.div_mod_eq b 60). now rewrite Hm, Hsec.
Qed.

Lemma formatTime_distinct_witness : formatTime 59 ≠ formatTime 60.
Proof. apply formatTime_distinct; [reflexivity|reflexivity|lia]. Defined.

(** ** The library: variants and availability *)

(** The address played and the info displayed come from the same
    variant. *)
Lemma getRecordingUrl_info (c : View) (p : Platform) (r : RecordingEntry) :
  getRecordingUrl c p r
  = normalizeServerUrl (hostname p) (getRecordingInfo c r ≫= url).
Proof.
  unfold getRecordingUrl, getRecordingInfo.
  destruct (String.eqb (selectedFormat c r) "mp3"); [reflexivity|].
  destruct (String.eqb (selectedFormat c r) "mp4"); reflexivity.
Qed.

Lemma normalizeServerUrl_None (host : string) (address : option string) :
  normalizeServerUrl host address = None ↔ address = None ∨ address = Some "".
Proof.
  unfold normalizeServerUrl. destruct address as [[|ch a]|]; cbn.
  - split; auto.
  - destruct (String.eqb host "localhost");
      [|destruct (String.eqb host "10.0.2.2")];
      (split; [discriminate|intros [?|?]; discriminate]).
  - split; auto.
Qed.

(** X3. A library entry is available, and its play control enabled,
    exactly when the variant of its selected format exists and has a
    non-empty address; the address resolved for playback is then
    non-empty. The play control of an entry that is not available does
    nothing. *)
Theorem getRecordingUrl_available
    (c : View) (p : Platform) (r : RecordingEntry) :
  (is_Some (getRecordingUrl c p r) ↔
   ∃ v raw, getRecordingInfo c r = Some v ∧ url v = Some raw ∧ raw ≠ "")
  ∧ (∀ u, getRecordingUrl c p r = Some u → u ≠ "")
  ∧ (∀ s, platform (world s) = p → getRecordingUrl c p r = None →
          clickPlayEntry c r s = s).
Proof.
  split; [|split].
  - rewrite getRecordingUrl_info. split.
    + intros [u Hu].
      destruct (getRecordingInfo c r) as [v|]; [|discriminate].
      destruct v as [[raw|] vMime vSize]; [|discriminate Hu].
      exists (mkVariant (Some raw) vMime vSize), raw.
      split; [reflexivity|]. split; [reflexivity|].
      intros ->. discriminate.
    + intros (v & raw & -> & Er & Hne).
      destruct v as [vUrl vMime vSize]. cbn in Er. subst vUrl. cbn.
      destruct (normalizeServerUrl (hostname p) (Some raw)) as [u|] eqn:E;
        [now exists u|].
      apply normalizeServerUrl_None in E. destruct E as [E|E].
      * discriminate E.
      * injection E as E. contradiction.
  - intros u Hu ->. now apply normalizeServerUrl_truthy in Hu.
  - intros s <- Hn. destruct s as [v w]. unfold clickPlayEntry. cbn [world].
    cbn in Hn. now rewrite Hn.
Qed.

Lemma getRecordingUrl_available_witness :
  getRecordingUrl libraryView desktop entryB
  = Some "http://localhost:5000/files/b.mp4"
  ∧ clickPlayEntry libraryView entryC (mkSt libraryView idleWorld)
    = mkSt libraryView idleWorld.
Proof.
  destruct (getRecordingUrl_available libraryView desktop entryC)
    as (_ & _ & H).
  split; [reflexivity|]. apply H; reflexivity.
Defined.

(** X4. The MP4 variant is used only when the tag stored for the entry
    is exactly "mp4". With no tag stored, an empty one or any other tag,
    the MP3 variant is used, for the info displayed and for the address
    played alike. *)
Theorem selectedFormat_defaults_to_mp3
    (c : View) (p : Platform) (r : RecordingEntry) :
  (recordingFormats c !! _id r = Some "mp4" →
   getRecordingInfo c r = mp4 r
   ∧ getRecordingUrl c p r = normalizeServerUrl (hostname p) (mp4 r ≫= url))
  ∧ (recordingFormats c !! _id r ≠ Some "mp4" →
     getRecordingInfo c r = mp3 r
     ∧ getRecordingUrl c p r = normalizeServerUrl (hostname p) (mp3 r ≫= url)).
Proof.
  rewrite getRecordingUrl_info. unfold getRecordingInfo, selectedFormat.
  split.
  - intros ->. split; reflexivity.
  - intros Hne. destruct (recordingFormats c !! _id r) as [f|];
      [|split; reflexivity].
    destruct (JsString.truthy f); [|split; reflexivity].
    destruct (String.eqb f "mp3"); [split; reflexivity|].
    destruct (String.eqb f "mp4") eqn:E; [|split; reflexivity].
    apply String.eqb_eq in E. subst f. contradiction.
Qed.

Lemma selectedFormat_defaults_to_mp3_witness :
  getRecordingUrl libraryView desktop entryB
  = Some "http://localhost:5000/files/b.mp4"
  ∧ getRecordingUrl libraryView desktop entryA
    = Some "http://localhost:5000/files/a.mp3".
Proof.
  destruct (selectedFormat_defaults_to_mp3 libraryView desktop entryB)
    as [H1 _].
  destruct (selectedFormat_defaults_to_mp3 libraryView desktop entryA)
    as [_ H2].
  split.
  - apply H1. reflexivity.
  - apply H2. discriminate.
Defined.

Lemma handleFormatChange_formats c recordingId newFormat s :
  recordingFormats (view (handleFormatChange c recordingId newFormat s))
  = <[recordingId := newFormat]> (recordingFormats (view s)).
Proof. by_cases s; reflexivity. Qed.

(** X5. After a variant is chosen for an entry, the next render reads
    the chosen tag for that entry (the MP3 default for an empty tag),
    takes its info from the MP4 variant exactly when the tag is "mp4",
    and reads what it read before for every other entry. *)
Theorem handleFormatChange_selects
    (c : View) (recordingId newFormat : string) (s : St) (r : RecordingEntry) :
  let v' := view (handleFormatChange c recordingId newFormat s) in
  (_id r = recordingId →
   selectedFormat v' r = (if JsString.truthy newFormat then newFormat else "mp3")
   ∧ getRecordingInfo v' r
     = if String.eqb newFormat "mp4" then mp4 r else mp3 r)
  ∧ (_id r ≠ recordingId →
     selectedFormat v' r = selectedFormat (view s) r
     ∧ getRecordingInfo v' r = getRecordingInfo (view s) r).
Proof.
  intros v'. subst v'.
  unfold getRecordingInfo, selectedFormat.
  rewrite handleFormatChange_formats. split.
  - intros <-. rewrite lookup_insert_eq. split; [reflexivity|].
    destruct newFormat as [|ch f]; [reflexivity|]. cbn [JsString.truthy].
    destruct (String.eqb (String ch f) "mp4") eqn:E4.
    + apply String.eqb_eq in E4. rewrite E4. reflexivity.
    + destruct (String.eqb (String ch f) "mp3"); reflexivity.
  - intros Hne. rewrite lookup_insert_ne by congruence. split; reflexivity.
Qed.

Lemma handleFormatChange_selects_witness :
  getRecordingInfo
    (view (handleFormatChange libraryView "a1" "mp4"
             (mkSt libraryView idleWorld))) entryA = None
  ∧ selectedFormat
      (view (handleFormatChange libraryView "a1" "mp4"
               (mkSt libraryView idleWorld))) entryB = "mp4".
Proof.
  destruct (handleFormatChange_selects libraryView "a1" "mp4"
              (mkSt libraryView idleWorld) entryA) as [H1 _].
  destruct (handleFormatChange_selects libraryView "a1" "mp4"
              (mkSt libraryView idleWorld) entryB) as [_ H2].
  split.
  - apply H1. reflexivity.
  - apply H2. discriminate.
Defined.

(** ** A capture from the grant to its end *)

Arguments recorderEvent !e !s /.

(** X6. On a platform that supports capture and with the engine loaded,
    [startRecording] first stops whatever plays (the element paused and
    rewound, the playback timer cleared, the selection dropped, the
    elapsed time reset), clears the message and then requests the
    device, once. The recorder, its chunks and the recording flag are
    not touched before the device is granted. *)
Theorem startRecording_stops_playback_first (c : View) (s : St) :
  hasGetUserMedia (platform (world s)) = true →
  hasMediaRecorder (platform (world s)) = true →
  ffmpegLoaded (world s) = true →
  let s' := startRecording c s in
  emitted (startRecording c) s = (stopEvents (world s) ++ [EvGetUserMedia])%list
  ∧ playbackSlot (view s') = (NoSource, false, 0)
  ∧ selectedRecording (view s') = None
  ∧ error (view s') = ""
  ∧ audioPlayerRef (world s')
    = (λ a, mkAudio (src a) 0 true) <$> audioPlayerRef (world s)
  ∧ playbackTimerRef (world s') = None
  ∧ pendingDevice (world s') = S (pendingDevice (world s))
  ∧ isRecording (view s') = isRecording (view s)
  ∧ mediaRecorderRef (world s') = mediaRecorderRef (world s)
  ∧ chunksRef (world s') = chunksRef (world s).
Proof.
  intros Hg Hm Hl s'. subst s'. open_st s.
  destruct wP as [pHost pGum pMr pSup pDef pCb]. cbn in Hg, Hm, Hl. subst.
  unfold stopEvents. run. split_all; read_log; repeat split.
Qed.

Lemma startRecording_stops_playback_first_witness :
  emitted (startRecording playingLocalView) (mkSt playingLocalView playingWorld)
  = [EvPause; EvSeek 0; EvClearInterval 1%positive; EvGetUserMedia]
  ∧ playbackSlot
      (view (startRecording playingLocalView
               (mkSt playingLocalView playingWorld)))
    = (NoSource, false, 0).
Proof.
  destruct (startRecording_stops_playback_first playingLocalView
              (mkSt playingLocalView playingWorld) eq_refl eq_refl eq_refl)
    as (H1 & H2 & _).
  split; [exact H1|exact H2].
Defined.

(** A chunk without bytes adds nothing to the capture. *)
Lemma ondataavailable_bytes (d : Blob) (s : St) :
  view (ondataavailable d s) = view s
  ∧ mediaRecorderRef (world (ondataavailable d s)) = mediaRecorderRef (world s)
  ∧ concat (map blob_bytes (chunksRef (world (ondataavailable d s))))
    = (concat (map blob_bytes (chunksRef (world s))) ++ blob_bytes d)%list.
Proof.
  open_st s. run. destruct (decide (0 < blob_size d)) as [Hpos|Hzero]; run.
  - repeat split. rewrite map_app, concat_app. cbn. now rewrite app_nil_r.
  - repeat split. unfold blob_size in Hzero.
    destruct (blob_bytes d); [now rewrite app_nil_r|cbn in Hzero; lia].
Qed.

Lemma runRecorder_state (es : list RecorderEvent) (s : St) :
  recordingTime (view (runRecorder es s))
  = (recordingTime (view s) + ticksOf es)%nat
  ∧ isRecording (view (runRecorder es s)) = isRecording (view s)
  ∧ mediaRecorderRef (world (runRecorder es s)) = mediaRecorderRef (world s)
  ∧ concat (map blob_bytes (chunksRef (world (runRecorder es s))))
    = (concat (map blob_bytes (chunksRef (world s))) ++ bytesOf es)%list.
Proof.
  revert s. induction es as [|e es IH]; intros s.
  - unfold ticksOf, bytesOf. cbn. rewrite app_nil_r. repeat split. lia.
  - change (runRecorder (e :: es) s) with (runRecorder es (recorderEvent e s)).
    destruct (IH (recorderEvent e s)) as (-> & -> & -> & ->).
    destruct e as [|d].
    + open_st s. unfold ticksOf, bytesOf. cbn. repeat split. lia.
    + destruct (ondataavailable_bytes d s) as (Hv & Hm & Hb).
      change (recorderEvent (Data d) s) with (ondataavailable d s).
      rewrite Hv, Hm, Hb. unfold ticksOf, bytesOf. cbn.
      rewrite <- app_assoc. repeat split.
Qed.

(** X7. From the grant of the device to the end of the capture: the
    recording time shown is the number of ticks of the recording timer
    since the grant, whatever it showed before; and the raw capture
    [onstop] hands to the engine holds exactly the bytes the recorder
    delivered since the grant, in the order of delivery. Chunks left
    from an earlier capture are not part of it. Its type is the type
    the recorder in the ref reports, as [Blob] normalizes it: in lower
    case. *)
Theorem capture_holds_delivered_bytes
    (c c0 : View) (stream : positive) (es : list RecorderEvent) (s : St) :
  let s1 := runRecorder es (deviceGranted c stream s) in
  recordingTime (view s1) = ticksOf es
  ∧ isRecording (view s1) = true
  ∧ is_Some (mediaRecorderRef (world s1))
  ∧ (∀ mr, mediaRecorderRef (world s1) = Some mr →
           audioBlob (view (onstopBegin c0 s1))
           = Some (mkBlob (bytesOf es) (blobType (mimeType mr)))).
Proof.
  intros s1. subst s1.
  destruct (runRecorder_state es (deviceGranted c stream s))
    as (Ht & Hr & Hm & Hb).
  assert (Hg : recordingTime (view (deviceGranted c stream s)) = 0
               ∧ isRecording (view (deviceGranted c stream s)) = true
               ∧ is_Some (mediaRecorderRef (world (deviceGranted c stream s)))
               ∧ chunksRef (world (deviceGranted c stream s)) = []).
  { by_cases s; repeat split; eexists; reflexivity. }
  destruct Hg as (Hg1 & Hg2 & Hg3 & Hg4).
  rewrite Hg1 in Ht. rewrite Hg2 in Hr. rewrite <- Hm in Hg3.
  rewrite Hg4 in Hb. cbn in Hb. clear Hg1 Hg2 Hg4 Hm.
  split; [exact Ht|]. split; [exact Hr|]. split; [exact Hg3|].
  generalize dependent (runRecorder es (deviceGranted c stream s)).
  intros s1 _ _ Hb _ mr Hm. open_st s1. cbn in Hm, Hb. subst wMr. run.
  unfold initialBlobOf, newBlob. cbn. rewrite Hb.
  split_all; reflexivity.
Qed.

Lemma capture_holds_delivered_bytes_witness :
  audioBlob
    (view (onstopBegin readyView
             (runRecorder [Data chunk1; Tick; Data (mkBlob [] ""); Data chunk2]
                (deviceGranted readyView 1%positive
                   (mkSt recordingView (readyWorld mixedCase))))))
  = Some (mkBlob [Byte.x01; Byte.x02; Byte.x03] "audio/webm").
Proof.
  destruct (capture_holds_delivered_bytes readyView readyView 1%positive
              [Data chunk1; Tick; Data (mkBlob [] ""); Data chunk2]
              (mkSt recordingView (readyWorld mixedCase))) as (_ & _ & _ & H).
  exact (H (mkMediaRecorder "Audio/WebM" 1%positive true) eq_refl).
Defined.

(** X8. [stopRecording] does nothing unless the render it closed over
    is recording and a recorder exists. Otherwise it stops the recorder
    and clears the recording timer, which ticks no more; the tracks of
    the stream stay live and the chunks stay where they are until the
    recorder's stop event arrives. *)
Theorem stopRecording_ends_capture (c : View) (s : St) :
  (isRecording c = false ∨ mediaRecorderRef (world s) = None →
   stopRecording c s = s)
  ∧ (∀ mr id,
       isRecording c = true →
       mediaRecorderRef (world s) = Some mr →
       timerRef (world s) = Some id →
       let s' := stopRecording c s in
       emitted (stopRecording c) s = [EvRecorderStop; EvClearInterval id]
       ∧ isRecording (view s') = false
       ∧ timerRef (world s') = None
       ∧ (∀ k, (id, k) ∉ intervals (world s'))
       ∧ liveStreams (world s') = liveStreams (world s)
       ∧ chunksRef (world s') = chunksRef (world s)
       ∧ audioBlob (view s') = audioBlob (view s)).
Proof.
  split.
  - intros [Hr|Hm]; open_st s; run.
    + rewrite Hr. now destruct wMr.
    + cbn in Hm. now subst wMr.
  - intros mr id Hr Hm Ht s'. subst s'. open_st s. cbn in Hm, Ht. subst.
    run. rewrite Hr. run. read_log. repeat split.
    intros k Hin. apply list_elem_of_filter in Hin as [Hne _]. now apply Hne.
Qed.

Lemma stopRecording_ends_capture_witness :
  stopRecording stoppedView (mkSt stoppedView stoppedWorld)
  = mkSt stoppedView stoppedWorld
  ∧ emitted (stopRecording recordingView) (mkSt recordingView recordingWorld)
    = [EvRecorderStop; EvClearInterval 2%positive].
Proof.
  destruct (stopRecording_ends_capture stoppedView
              (mkSt stoppedView stoppedWorld)) as [H1 _].
  destruct (stopRecording_ends_capture recordingView
              (mkSt recordingView recordingWorld)) as [_ H2].
  split.
  - apply H1. left. reflexivity.
  - now destruct (H2 (mkMediaRecorder "audio/webm" 1%positive true)
                     2%positive eq_refl eq_refl eq_refl) as (H & _).
Defined.

(** ** Failures, uploads and the end of the media *)

Lemma playRejected_error m u s :
  JsString.truthy (error (view (playRejected m u s))) = true.
Proof. by_cases s; reflexivity. Qed.

Lemma rejectAll_error l s :
  JsString.truthy (error (view s)) = true →
  JsString.truthy (error (view (rejectAll l s))) = true.
Proof.
  revert s. induction l as [|p l IH]; intros s H; [exact H|].
  change (rejectAll (p :: l) s)
    with (rejectAll l (playRejected abortMessage (playUrl p) s)).
  apply IH, playRejected_error.
Qed.

Lemma settleAborted_error s :
  JsString.truthy (error (view s)) = true →
  JsString.truthy (error (view (settleAborted s))) = true.
Proof.
  intros H. unfold settleAborted. apply rejectAll_error.
  now destruct s as [v w].
Qed.

Lemma commit_error c s :
  JsString.truthy (error (view s)) = true →
  JsString.truthy (error (view (commit c s))) = true.
Proof. intros H. open_st s. cbn in H. run. split_all; assumption || reflexivity. Qed.

Lemma handler_failure_error (t : Task) (c : View) (s : St) :
  reportsFailure t = true →
  JsString.truthy (error (view (handler t c s))) = true.
Proof.
  destruct t; try discriminate; intros _; cbn [handler];
    by_cases s; reflexivity.
Qed.

Lemma next_failure_error (t : Task) (s : St) :
  reportsFailure t = true →
  JsString.truthy (error (view (next t s))) = true.
Proof.
  intros Hf. unfold next.
  now apply commit_error, settleAborted_error, handler_failure_error.
Qed.

(** X9. Every failure reported to the user (the device refused, a
    recorder error, a failed conversion, a failed upload, the engine
    failing to load) leaves a message in the next render, and with a
    message shown the record control is disabled: clicking it does
    nothing. *)
Theorem failure_disables_record_control (t : Task) (s : St) :
  reportsFailure t = true →
  let s' := next t s in
  JsString.truthy (error (view s')) = true
  ∧ recordButtonDisabled (view s') (world s') = true
  ∧ clickRecord (view s') s' = s'.
Proof.
  intros Hf s'.
  assert (He : JsString.truthy (error (view s')) = true).
  { subst s'. now apply next_failure_error. }
  clearbody s'.
  assert (Hd : recordButtonDisabled (view s') (world s') = true).
  { unfold recordButtonDisabled. now rewrite He. }
  split; [exact He|]. split; [exact Hd|].
  unfold clickRecord. now rewrite Hd.
Qed.

Lemma failure_disables_record_control_witness :
  clickRecord
    (view (next (DeviceDenied "Permission denied")
             (mkSt readyView idleWorld)))
    (next (DeviceDenied "Permission denied") (mkSt readyView idleWorld))
  = next (DeviceDenied "Permission denied") (mkSt readyView idleWorld).
Proof.
  now destruct (failure_disables_record_control
                  (DeviceDenied "Permission denied")
                  (mkSt readyView idleWorld) eq_refl) as (_ & _ & H).
Defined.

(** X10. When the media ends by itself, [handleAudioEnded] leaves the
    React state and the timers exactly as [stopPlayback] would, without
    touching the element: it is neither paused nor rewound, and only the
    playback timer is cleared. *)
Theorem handleAudioEnded_like_stop (s : St) :
  view (handleAudioEnded s) = view (stopPlayback s)
  ∧ playbackSlot (view (handleAudioEnded s)) = (NoSource, false, 0)
  ∧ playbackTimerRef (world (handleAudioEnded s)) = None
  ∧ intervals (world (handleAudioEnded s)) = intervals (world (stopPlayback s))
  ∧ audioPlayerRef (world (handleAudioEnded s)) = audioPlayerRef (world s)
  ∧ emitted handleAudioEnded s = clearEvents (world s).
Proof. unfold clearEvents. by_cases s; read_log; repeat split. Qed.

Lemma handler_upload_failure (t : Task) (c : View) (s : St) :
  (t = UploadNetworkError ∨ ∃ m, t = UploadRejected m) →
  ∃ e, handler t c s = onView (setError e) s ∧ JsString.truthy e = true.
Proof.
  intros [->|[m ->]].
  - eexists. split; reflexivity.
  - eexists. split; [reflexivity|]. destruct m as [[|ch m]|]; reflexivity.
Qed.

(** X11. A failed upload, refused by the server or lost on the network,
    changes nothing but the message: the blob and its address stay
    stored, nothing is released and nothing else in the world moves, so
    the recording can be submitted again. *)
Theorem upload_failure_keeps_artifact (t : Task) (s : St) :
  settled s →
  (t = UploadNetworkError ∨ ∃ m, t = UploadRejected m) →
  let s' := next t s in
  exposedArtifact (view s') = exposedArtifact (view s)
  ∧ world s' = world s
  ∧ (∃ e, view s' = setError e (view s) ∧ JsString.truthy e = true).
Proof.
  intros Hs Ht s'. subst s'. unfold next.
  destruct (handler_upload_failure t (view s) s Ht) as (e & -> & He).
  rewrite settleAborted_settled by (now destruct s as [v w]).
  destruct s as [v w]. unfold commit. cbn [view onView].
  assert (Hu : audioUrl (setError e v) = audioUrl v) by reflexivity.
  rewrite Hu.
  destruct (decide (audioUrl v = audioUrl v)) as [_|Hne]; [|contradiction].
  split; [reflexivity|]. split; [reflexivity|]. now exists e.
Qed.

Lemma upload_failure_keeps_artifact_witness :
  exposedArtifact
    (view (next (UploadRejected (Some "File too large"))
             (mkSt readyView idleWorld)))
  = (Some (mkBlob [Byte.x2a] "audio/mp4"), "blob:1").
Proof.
  assert (Hs : settled (mkSt readyView idleWorld)) by constructor.
  now destruct (upload_failure_keeps_artifact
                  (UploadRejected (Some "File too large"))
                  (mkSt readyView idleWorld) Hs
                  (or_intror (ex_intro _ (Some "File too large") eq_refl)))
    as (H & _).
Defined.

Lemma uploadOk_pendingPlays c0 s :
  pendingPlays (world (uploadOk c0 s)) = pendingPlays (world s).
Proof. by_cases s; reflexivity. Qed.

Lemma onstopFailed_pendingPlays c0 ib stage m s :
  pendingPlays (world (onstopFailed c0 ib stage m s)) = pendingPlays (world s).
Proof. by_cases s; reflexivity. Qed.

(** X12. A successful upload discards the local artifact: no blob, no
    address, local playback no longer offered. The address is released
    twice, by the handler and again by the cleanup of the effect that
    the change of address re-runs; and the library is fetched twice, by
    the handler and by the effect. *)
Theorem upload_success_discards_artifact (c0 : View) (s : St) (u : string) :
  settled s →
  audioUrl c0 = u →
  audioUrl (view s) = u →
  JsString.truthy u = true →
  let s' := next (UploadOk c0) s in
  exposedArtifact (view s') = (None, "")
  ∧ localPlaybackOffered (view s') = false
  ∧ countEv (isRevokeOf u) (emitted (next (UploadOk c0)) s) = 2
  ∧ countEv isRevoke (emitted (next (UploadOk c0)) s) = 2
  ∧ countEv isFetchRecordings (emitted (next (UploadOk c0)) s) = 2.
Proof.
  intros Hs Hc Hv Ht s'. subst s'.
  assert (E : next (UploadOk c0) s = commit (view s) (uploadOk c0 s)).
  { unfold next. cbn [handler]. rewrite settleAborted_settled; [reflexivity|].
    unfold settled. now rewrite uploadOk_pendingPlays. }
  unfold emitted. rewrite E. clear E Hs. unfold countEv.
  open_st s. cbn in Hv. subst vUrl. run. rewrite Hc, Ht. subst u.
  destruct (audioUrl c0) as [|ch u] eqn:Eu; [discriminate|]. run.
  destruct (decide ("" = String ch u)) as [E|_]; [discriminate E|].
  run. split_all; read_log; rewrite ?String.eqb_refl, ?Ascii.eqb_refl;
    repeat split.
Qed.

Lemma upload_success_discards_artifact_witness :
  exposedArtifact (view (next (UploadOk readyView) (mkSt readyView idleWorld)))
  = (None, "")
  ∧ emitted (next (UploadOk readyView)) (mkSt readyView idleWorld)
    = [EvFetchRecordings; EvRevokeObjectURL "blob:1";
       EvRevokeObjectURL "blob:1"; EvFetchRecordings].
Proof.
  assert (Hs : settled (mkSt readyView idleWorld)) by constructor.
  destruct (upload_success_discards_artifact readyView
              (mkSt readyView idleWorld) "blob:1" Hs eq_refl eq_refl eq_refl)
    as (H & _).
  split; [exact H|reflexivity].
Defined.

(** X13. In the main variant a failed conversion discards the local
    artifact in the render that follows: no blob, no address, local
    playback not offered, the conversion over, a message shown. The
    address the handler closed over is released by the handler. *)
Theorem conversion_failure_discards_artifact
    (c0 : View) (ib : Blob) (stage : ConvStage) (message : string) (s : St) :
  settled s →
  let t := ConversionFailed c0 ib stage message in
  let s' := next t s in
  exposedArtifact (view s') = (None, "")
  ∧ localPlaybackOffered (view s') = false
  ∧ isConverting (view s') = false
  ∧ JsString.truthy (error (view s')) = true
  ∧ (JsString.truthy (audioUrl c0) = true →
     EvRevokeObjectURL (audioUrl c0) ∈ emitted (next t) s).
Proof.
  intros Hs t s'. subst s' t.
  assert (E : next (ConversionFailed c0 ib stage message) s
              = commit (view s) (onstopFailed c0 ib stage message s)).
  { unfold next. cbn [handler]. rewrite settleAborted_settled; [reflexivity|].
    unfold settled. now rewrite onstopFailed_pendingPlays. }
  destruct (onstopFailed_discards_artifact c0 ib stage message s)
    as (H1 & H2 & H3 & _).
  unfold emitted. rewrite E.
  split; [exact H1|]. split; [exact H2|]. split; [exact H3|]. split.
  - rewrite <- E. now apply next_failure_error.
  - intros Ht. clear E Hs H1 H2 H3. open_st s. run. rewrite Ht.
    destruct stage; run; split_all; read_log;
      repeat first [apply list_elem_of_here | apply list_elem_of_further].
Qed.

Lemma conversion_failure_discards_artifact_witness :
  exposedArtifact
    (view (next (ConversionFailed readyView rawCapture AtExec "exit 1")
             (mkSt readyView idleWorld))) = (None, "")
  ∧ EvRevokeObjectURL "blob:1"
    ∈ emitted (next (ConversionFailed readyView rawCapture AtExec "exit 1"))
        (mkSt readyView idleWorld).
Proof.
  assert (Hs : settled (mkSt readyView idleWorld)) by constructor.
  destruct (conversion_failure_discards_artifact readyView rawCapture AtExec
              "exit 1" (mkSt readyView idleWorld) Hs) as (H1 & _ & _ & _ & H5).
  split; [exact H1|exact (H5 eq_refl)].
Defined.

(** ** Playing a library entry *)



(** X15. Once the recorder's stop event has been handled, the render
    that follows is converting, and while it is every control is inert:
    recording, local playback, the playback of any entry and the
    submission all leave the state unchanged. *)
Theorem controls_inert_while_converting
    (c0 : View) (s : St) (mr : MediaRecorder) :
  mediaRecorderRef (world s) = Some mr →
  let s1 := commit (view s) (onstopBegin c0 s) in
  let c := view s1 in
  isConverting c = true
  ∧ clickRecord c s1 = s1
  ∧ clickLocalPlay c s1 = s1
  ∧ (∀ r, clickPlayEntry c r s1 = s1)
  ∧ (∀ now, clickSubmit c now s1 = s1).
Proof.
  intros Hm s1 c.
  assert (Hc : isConverting c = true).
  { subst c s1. destruct (onstopBegin_view c0 s mr Hm) as [Ev _].
    destruct (commit_frame (view s) (onstopBegin c0 s)) as ([e ->] & _).
    now rewrite Ev. }
  clearbody c. clearbody s1. destruct s1 as [v w].
  split; [exact Hc|]. split; [|split; [|split]].
  - unfold clickRecord, recordButtonDisabled. rewrite Hc.
    now rewrite orb_true_r.
  - unfold clickLocalPlay. rewrite Hc. now rewrite orb_true_r.
  - intros r. unfold clickPlayEntry. rewrite Hc.
    now destruct (getRecordingUrl c (platform (world (mkSt v w))) r).
  - intros now. unfold clickSubmit. rewrite Hc. now rewrite orb_true_r.
Qed.

Lemma controls_inert_while_converting_witness :
  clickLocalPlay
    (view (commit stoppedView (onstopBegin stoppedView
                                 (mkSt stoppedView stoppedWorld))))
    (commit stoppedView (onstopBegin stoppedView (mkSt stoppedView stoppedWorld)))
  = commit stoppedView (onstopBegin stoppedView (mkSt stoppedView stoppedWorld)).
Proof.
  now destruct (controls_inert_while_converting stoppedView
                  (mkSt stoppedView stoppedWorld)
                  (mkMediaRecorder "audio/webm" 1%positive false) eq_refl)
    as (_ & _ & H & _).
Defined.

(** X16. A render in which the local address has changed runs the
    cleanup of the effect: both timers held in the refs are cleared and
    the tracks of the stream in its ref are stopped, whatever the
    component is doing. The refs themselves and the flags are left as
    they were, so a capture that was running is still shown as
    recording. *)
Theorem commit_on_address_change_cleans_up (c : View) (s : St) :
  audioUrl (view s) ≠ audioUrl c →
  let s' := commit c s in
  (∀ id k, timerRef (world s) = Some id → (id, k) ∉ intervals (world s'))
  ∧ (∀ id k, playbackTimerRef (world s) = Some id →
             (id, k) ∉ intervals (world s'))
  ∧ (∀ st, streamRef (world s) = Some st → st ∉ liveStreams (world s'))
  ∧ timerRef (world s') = timerRef (world s)
  ∧ playbackTimerRef (world s') = playbackTimerRef (world s)
  ∧ streamRef (world s') = streamRef (world s)
  ∧ isRecording (view s') = isRecording (view s)
  ∧ isPlaying (view s') = isPlaying (view s)
  ∧ countEv isFetchRecordings (emitted (commit c) s) = 1.
Proof.
  intros Hne s'. subst s'. unfold countEv. open_st s. cbn in Hne. run.
  destruct (decide (vUrl = audioUrl c)) as [E|_]; [contradiction|].
  run. split_all; read_log;
    (split; [|split; [|split; [|repeat split]]]).
  all: try (intros ? ? [= <-] Hin); try (intros ? [= <-] Hin);
    try discriminate;
    repeat (apply list_elem_of_filter in Hin; destruct Hin as [? Hin]);
    try congruence;
    match goal with H : _ ≠ _ |- _ => now apply H end.
Qed.

Lemma commit_on_address_change_cleans_up_witness :
  intervals (world (commit recordingView
                      (onView (setAudioUrl "") (mkSt recordingView recordingWorld))))
  = []
  ∧ isRecording (view (commit recordingView
                         (onView (setAudioUrl "")
                            (mkSt recordingView recordingWorld)))) = true.
Proof.
  assert (Hne : audioUrl (view (onView (setAudioUrl "")
                                  (mkSt recordingView recordingWorld)))
                ≠ audioUrl recordingView) by discriminate.
  destruct (commit_on_address_change_cleans_up recordingView _ Hne)
    as (_ & _ & _ & _ & _ & _ & H & _).
  split; [reflexivity|exact H].
Defined.

(** ** The Opus variant's playback and addresses *)

Lemma filter_fresh_id (id : positive) (k : TimerKind)
    (l : list (positive * TimerKind)) :
  Forall (λ p, p.1 ≠ id) l →
  filter (λ p, p.1 ≠ id) (l ++ [(id, k)])%list = l.
Proof.
  intros H. rewrite filter_app. cbn.
  rewrite decide_False by (intros Hne; now apply Hne). rewrite app_nil_r.
  induction H as [|p l Hp _ IH]; [reflexivity|].
  rewrite filter_cons, decide_True by exact Hp. now rewrite IH.
Qed.

(** X17. In the Opus variant, playing the local recording and stopping
    it again leaves no timer behind: the element is paused and rewound,
    the one playback timer that was started is cleared, and the table of
    running timers is what it was (the platform hands out an id that no
    running timer has). Playback counts as started at once, without
    waiting for the element. *)
Theorem opus_play_stop_round_trip (c : View) (s : St) (a : Audio) :
  audioPlayerRef (world s) = Some a →
  JsString.truthy (audioUrl c) = true →
  Forall (λ p, p.1 ≠ nextId (world s)) (intervals (world s)) →
  let s1 := Opus.startPlayback c s in
  let s2 := Opus.stopPlayback s1 in
  isPlaying (view s1) = true
  ∧ emitted (Opus.startPlayback c) s
    = [EvPlay; EvSetInterval (nextId (world s)) PlaybackTick]
  ∧ emitted Opus.stopPlayback s1
    = [EvPause; EvSeek 0; EvClearInterval (nextId (world s))]
  ∧ intervals (world s2) = intervals (world s)
  ∧ playbackTimerRef (world s2) = None
  ∧ audioPlayerRef (world s2) = Some (mkAudio (src a) 0 true)
  ∧ isPlaying (view s2) = false
  ∧ playbackTime (view s2) = 0.
Proof.
  intros Ha Ht Hfresh s1 s2. subst s1 s2. open_st s. cbn in Ha, Hfresh.
  subst wAudio. run. rewrite Ht. run. read_log.
  rewrite filter_fresh_id by exact Hfresh. repeat split.
  rewrite length_app, drop_app_ge by lia.
  replace (_ - _)%nat with 2%nat by (cbn; lia). reflexivity.
Qed.

Lemma opus_play_stop_round_trip_witness :
  intervals (world (Opus.stopPlayback
                      (Opus.startPlayback readyView (mkSt readyView idleWorld))))
  = []
  ∧ isPlaying (view (Opus.startPlayback readyView (mkSt readyView idleWorld)))
    = true.
Proof.
  destruct (opus_play_stop_round_trip readyView (mkSt readyView idleWorld)
              (mkAudio "" 0 true) eq_refl eq_refl (Forall_nil_2 _))
    as (H1 & _ & _ & H4 & _).
  split; [exact H4|exact H1].
Defined.

Lemma opus_onstopConverted_view c ib data u s :
  view (Opus.onstopConverted c ib data u s)
  = setIsConverting false (setError "" (setAudioUrl u
      (setAudioBlob (Some (mkBlob data "audio/opus")) (view s)))).
Proof. by_cases s; reflexivity. Qed.

(** X18. In the Opus variant a successful transcode stores the Opus
    blob under the new address without releasing the previous one; the
    render that follows releases the previous address twice, once for
    each of the two effects that depend on the address. *)
Theorem opus_transcode_releases_previous_twice
    (c0 : View) (ib : Blob) (data : list Byte.byte) (u old : string) (s : St) :
  audioUrl (view s) = old →
  JsString.truthy old = true →
  u ≠ old →
  let s1 := Opus.onstopConverted c0 ib data u s in
  exposedArtifact (view s1) = (Some (mkBlob data "audio/opus"), u)
  ∧ countEv (isRevokeOf old) (emitted (Opus.onstopConverted c0 ib data u) s) = 0
  ∧ countEv (isRevokeOf old) (emitted (Opus.commit (view s)) s1) = 2
  ∧ exposedArtifact (view (Opus.commit (view s) s1))
    = (Some (mkBlob data "audio/opus"), u).
Proof.
  intros Hold Ht Hne s1.
  assert (Ev : view s1 = setIsConverting false (setError "" (setAudioUrl u
                 (setAudioBlob (Some (mkBlob data "audio/opus")) (view s)))))
    by apply opus_onstopConverted_view.
  split; [now rewrite Ev|]. split; [|split].
  - unfold countEv. clear Ev. subst s1. by_cases s; read_log; reflexivity.
  - rewrite <- Hold. apply opus_commit_releases_twice.
    + rewrite Ev, Hold. exact Hne.
    + now rewrite Hold.
  - assert (Hb : audioBlob (view s1) = Some (mkBlob data "audio/opus"))
      by now rewrite Ev.
    assert (Hu : audioUrl (view s1) = u) by now rewrite Ev.
    clear Ev. clearbody s1. open_st s1. cbn in Hb, Hu. subst vBlob vUrl. run.
    destruct (decide (u = audioUrl (view s))); run; [reflexivity|].
    split_all; reflexivity.
Qed.

Lemma opus_transcode_releases_previous_twice_witness :
  countEv (isRevokeOf "blob:1")
    (emitted (Opus.commit opusStoppedView)
       (Opus.onstopConverted opusStoppedView rawCapture [Byte.x2a] "blob:2"
          (mkSt opusStoppedView stoppedWorld))) = 2.
Proof.
  assert (Hne : "blob:2" ≠ "blob:1") by discriminate.
  now destruct (opus_transcode_releases_previous_twice opusStoppedView
                  rawCapture [Byte.x2a] "blob:2" "blob:1"
                  (mkSt opusStoppedView stoppedWorld) eq_refl eq_refl Hne)
    as (_ & _ & H & _).
Defined.

(** ** More on reachable states *)

Lemma convertedState_reachable : reachable convertedState.
Proof.
  apply reach_next; [apply reach_next; [apply reach_mount|exact I]|].
  split; [|reflexivity]. intros H. now apply elem_of_nil in H.
Qed.

(** X19. In every reachable state a playback timer runs only while a
    source counts as playing, and it is the timer held in the ref:
    there is never a second one, and none is left running once playback
    has stopped. While a [play()] request is still pending nothing
    counts as playing, and at most one request is pending. *)
Theorem reachable_one_playback_timer (s : St) :
  reachable s →
  (∀ id, (id, PlaybackTick) ∈ intervals (world s) →
         playbackTimerRef (world s) = Some id ∧ isPlaying (view s) = true)
  ∧ (isPlaying (view s) = false →
     ∀ id, (id, PlaybackTick) ∉ intervals (world s))
  ∧ (pendingPlays (world s) ≠ [] → isPlaying (view s) = false)
  ∧ (length (pendingPlays (world s)) <= 1)%nat.
Proof.
  intros Hr. destruct (reachable_playbackInv s Hr) as [(_ & H2 & H3 & H4) Hs].
  split; [exact H2|]. split; [|split; [exact H3|]].
  - intros Hp id Hin. apply H2 in Hin as [_ Hin]. congruence.
  - destruct (filter_settled _ Hs) as [_ E]. now rewrite E in H4.
Qed.

Lemma reachable_one_playback_timer_witness :
  pendingPlays (world (next ClickLocalPlay convertedState))
  = [mkPlayPromise "blob:1" false]
  ∧ isPlaying (view (next ClickLocalPlay convertedState)) = false.
Proof.
  assert (Hr : reachable (next ClickLocalPlay convertedState)).
  { apply reach_next; [apply convertedState_reachable|exact I]. }
  destruct (reachable_one_playback_timer _ Hr) as (_ & _ & H & _).
  split; [reflexivity|]. apply H. discriminate.
Defined.

(** ** What can be submitted *)

Lemma handler_blobInv (t : Task) (c : View) (s : St) :
  blobInv s → blobInv (handler t c s).
Proof.
  unfold blobInv. intros H. open_st s. cbn in H.
  destruct t; cbn [handler]; run; split_all;
    first [ exact H
          | intros _; left; reflexivity
          | intros _; right; eexists; reflexivity
          | discriminate ].
Qed.

Lemma playRejected_blob m u s :
  audioBlob (view (playRejected m u s)) = audioBlob (view s)
  ∧ isConverting (view (playRejected m u s)) = isConverting (view s).
Proof. by_cases s; split; reflexivity. Qed.

Lemma rejectAll_blob l s :
  audioBlob (view (rejectAll l s)) = audioBlob (view s)
  ∧ isConverting (view (rejectAll l s)) = isConverting (view s).
Proof.
  revert s. induction l as [|p l IH]; intros s; [split; reflexivity|].
  change (rejectAll (p :: l) s)
    with (rejectAll l (playRejected abortMessage (playUrl p) s)).
  destruct (IH (playRejected abortMessage (playUrl p) s)) as [-> ->].
  apply playRejected_blob.
Qed.

Lemma next_blobInv (t : Task) (s : St) : blobInv s → blobInv (next t s).
Proof.
  intros H. apply (handler_blobInv t (view s)) in H. unfold next.
  generalize dependent (handler t (view s) s). intros s1 H.
  unfold blobInv in *.
  destruct (commit_frame (view s) (settleAborted s1)) as ([e ->] & _).
  unfold settleAborted.
  destruct (rejectAll_blob (List.filter aborted (pendingPlays (world s1)))
              (onWorld (withPendingPlays
                 (List.filter (λ p, negb (aborted p)) (pendingPlays (world s1))))
                 s1)) as [Hb Hc].
  change (isConverting (setError e ?v)) with (isConverting v).
  change (audioBlob (setError e ?v)) with (audioBlob v).
  rewrite Hb, Hc. now destruct s1 as [v w].
Qed.

Lemma reachable_blobInv (s : St) : reachable s → blobInv s.
Proof.
  induction 1 as [p | s t _ IH _].
  - intros _. left. reflexivity.
  - now apply next_blobInv.
Qed.

(** X20. In every reachable state the submit control either does
    nothing (no local recording, a conversion running) or uploads the
    stored blob, which is then a transcoded one of type audio/mp4, under
    the name "recording_" followed by the clock reading and ".mp4". The
    raw capture is never uploaded, the "m4a" fallback of the name is
    never taken, and the control never reports that there is nothing
    to submit. *)
Theorem reachable_submit_uploads_mp4 (s : St) (now : N) :
  isSafeInteger now = true →
  reachable s →
  (clickSubmit (view s) now s = s
   ∧ emitted (clickSubmit (view s) now) s = [])
  ∨ ∃ data,
      audioBlob (view s) = Some (mkBlob data "audio/mp4")
      ∧ emitted (clickSubmit (view s) now) s
        = [EvUpload (mkBlob data "audio/mp4")
             ("recording_" +:+ toString now +:+ ".mp4")]
      ∧ view (clickSubmit (view s) now s) = setError "" (view s).
Proof.
  intros _ Hr. pose proof (reachable_blobInv s Hr) as Hb. unfold blobInv in Hb.
  open_st s. cbn in Hb. unfold emitted. run.
  destruct (negb (JsString.truthy vUrl)); run;
    [left; now rewrite drop_all|].
  destruct vConv; run; [left; now rewrite drop_all|].
  destruct (Hb eq_refl) as [->|[data ->]]; run;
    [left; now rewrite drop_all|].
  right. exists data. rewrite drop_app_length. repeat split.
Qed.

Lemma reachable_submit_uploads_mp4_witness :
  emitted (clickSubmit (view convertedState) 1730000000000) convertedState
  = [EvUpload (mkBlob [Byte.x2a] "audio/mp4") "recording_1730000000000.mp4"].
Proof.
  destruct (reachable_submit_uploads_mp4 convertedState 1730000000000
              eq_refl convertedState_reachable)
    as [[_ H]|(data & Hb & H & _)].
  - discriminate H.
  - injection Hb as <-. exact H.
Defined.

Lemma next_address_issued (t : Task) (s : St) :
  audioUrl (view s) = "" ∨ audioUrl (view s) ∈ issued (world s) →
  audioUrl (view (next t s)) = ""
  ∨ audioUrl (view (next t s)) ∈ issued (world (next t s)).
Proof.
  intros H. unfold next.
  destruct (keeps_commit (view s) (settleAborted (handler t (view s) s)))
    as [-> ->].
  destruct (keeps_settleAborted (handler t (view s) s)) as [-> ->].
  pose proof (keeps_handler t (view s)) as Hk.
  destruct t; try (destruct (Hk s) as [-> ->]; exact H); clear Hk;
    cbn [handler].
  - right. rewrite onstopConverted_view, onstopConverted_issued.
    apply elem_of_app. right. apply list_elem_of_here.
  - left. by_cases s; reflexivity.
  - open_st s. cbn in H. run. split_all; auto.
Qed.

(** X21. In every reachable state the stored local address is empty
    or an object URL the platform issued; it is an issued one whenever
    the local playback section is rendered. With no library entry
    selected, an address the local play control attaches to the element
    is that issued address. (With an entry selected the control
    resolves the entry's address; nothing is said about that case.) *)
Theorem reachable_address_issued (s : St) :
  reachable s →
  (audioUrl (view s) = "" ∨ audioUrl (view s) ∈ issued (world s))
  ∧ (localPlaybackOffered (view s) = true →
     audioUrl (view s) ∈ issued (world s))
  ∧ (selectedRecording (view s) = None →
     ∀ u, EvSetSrc u ∈ emitted (clickLocalPlay (view s)) s →
          u = audioUrl (view s) ∧ u ∈ issued (world s)).
Proof.
  intros Hr.
  assert (H : audioUrl (view s) = "" ∨ audioUrl (view s) ∈ issued (world s)).
  { induction Hr as [p | s t _ IH _].
    - left. reflexivity.
    - now apply next_address_issued. }
  assert (Ho : localPlaybackOffered (view s) = true →
               audioUrl (view s) ∈ issued (world s)).
  { unfold localPlaybackOffered. intros Ho.
    destruct H as [E|H]; [|exact H]. rewrite E in Ho. discriminate. }
  split; [exact H|]. split; [exact Ho|].
  intros Hsel u. clear H Hr. unfold localPlaybackOffered in Ho.
  open_st s. cbn in Hsel, Ho. subst vSel. unfold emitted. run.
  destruct (JsString.truthy vUrl) eqn:Ht; run;
    [|rewrite drop_all; intros Hin; now apply elem_of_nil in Hin].
  specialize (Ho eq_refl).
  split_all; rewrite ?Ht; run; split_all; read_log; intros Hin;
    repeat (apply elem_of_cons in Hin as [Hin|Hin];
            [try discriminate Hin; try (injection Hin as ->; now split)|]);
    now apply elem_of_nil in Hin.
Qed.

Lemma reachable_address_issued_witness :
  audioUrl (view convertedState) ∈ issued (world convertedState)
  ∧ EvSetSrc "blob:1" ∈ emitted (clickLocalPlay (view convertedState))
                          convertedState.
Proof.
  destruct (reachable_address_issued convertedState convertedState_reachable)
    as (_ & H & H3).
  split; [apply H; reflexivity|].
  assert (Hin : EvSetSrc "blob:1"
                ∈ emitted (clickLocalPlay (view convertedState)) convertedState)
    by apply list_elem_of_here.
  destruct (H3 eq_refl "blob:1" Hin) as [_ _]. exact Hin.
Defined.

(** ** The engine is loaded once *)

Ltac quiet s :=
  let H := fresh "H" in
  intros s H; open_st s; cbn in H; subst; run; split_all;
  (split; [reflexivity|]); unfold countEv;
  rewrite ?List.filter_app, ?length_app; cbn; lia.

Lemma loadsNothing_handler (t : Task) (c : View) : loadsNothing (handler t c).
Proof. destruct t; cbn [handler]; quiet s. Qed.

Lemma loadsNothing_playRejected m u : loadsNothing (playRejected m u).
Proof. quiet s. Qed.

Lemma loadsNothing_rejectAll l : loadsNothing (rejectAll l).
Proof.
  induction l as [|p l IH]; intros s H; [split; [exact H|reflexivity]|].
  change (rejectAll (p :: l) s)
    with (rejectAll l (playRejected abortMessage (playUrl p) s)).
  destruct (loadsNothing_playRejected abortMessage (playUrl p) s H) as [H1 H2].
  destruct (IH _ H1) as [H3 H4]. split; [exact H3|]. now rewrite H4.
Qed.

Lemma loadsNothing_settleAborted : loadsNothing settleAborted.
Proof.
  intros s H. unfold settleAborted.
  destruct (loadsNothing_rejectAll (List.filter aborted (pendingPlays (world s)))
              (onWorld (withPendingPlays
                 (List.filter (λ p, negb (aborted p)) (pendingPlays (world s)))) s))
    as [H1 H2].
  - now destruct s as [v []].
  - split; [exact H1|]. rewrite H2. now destruct s as [v []].
Qed.

Lemma loadsNothing_commit c : loadsNothing (commit c).
Proof. quiet s. Qed.

Lemma loadsNothing_next t : loadsNothing (next t).
Proof.
  intros s H. unfold next.
  destruct (loadsNothing_handler t (view s) s H) as [H1 H2].
  destruct (loadsNothing_settleAborted _ H1) as [H3 H4].
  destruct (loadsNothing_commit (view s) _ H3) as [H5 H6].
  split; [exact H5|]. now rewrite H6, H4.
Qed.

(** X22. Once the engine has loaded it stays loaded and is never
    loaded again, whatever runs afterwards: the effect, which runs
    again on every change of the local address, requests the load only
    while the engine is not loaded. *)
Theorem engine_loaded_once (s s' : St) :
  steps s s' →
  ffmpegLoaded (world s) = true →
  ffmpegLoaded (world s') = true
  ∧ countEv isFfmpegLoad (log (world s'))
    = countEv isFfmpegLoad (log (world s)).
Proof.
  induction 1 as [s | s t s' _ _ IH]; intros H; [split; [exact H|reflexivity]|].
  destruct (loadsNothing_next t s H) as [H1 H2].
  destruct (IH H1) as [H3 H4]. split; [exact H3|]. now rewrite H4.
Qed.

Lemma engine_loaded_once_witness :
  countEv isFfmpegLoad
    (log (world (next (UploadOk readyView) (mkSt readyView idleWorld)))) = 0.
Proof.
  assert (Hs : steps (mkSt readyView idleWorld)
                 (next (UploadOk readyView) (mkSt readyView idleWorld))).
  { apply (steps_next _ (UploadOk readyView)); [exact I|apply steps_refl]. }
  now destruct (engine_loaded_once _ _ Hs eq_refl) as [_ H].
Defined.
